(** * osxkeychain: a shallow embedding of [osxkeychain/osxkeychain.go]

    The Go package drives the macOS Security / CoreFoundation C API through
    cgo.  The embedding keeps the Go control flow (early returns, [defer],
    run-time panics) and replaces the C side by an instrumented fake native
    layer: every [C.xxx] call of the source is appended to a log, objects the
    native layer creates get a fresh address, and what the keychain answers
    is read from a [World] record. *)

From Stdlib Require Import ZArith List String Ascii Bool Lia.
From Stdlib Require Strings.Byte.
Import ListNotations.

Local Open Scope string_scope.
Local Open Scope Z_scope.

(** ** Native data *)

Definition OSStatus := Z.
Definition CFIndex := Z.

(** [errSecSuccess], [kCFNotFound], [LONG_MAX] (CFIndex is a signed long),
    and the constants of Security/SecImportExport.h the source names. *)
Definition errSecSuccess : OSStatus := 0.
Definition kCFNotFound : CFIndex := -1.
Definition LONG_MAX : Z := 2 ^ 63 - 1.
Definition SEC_KEY_IMPORT_EXPORT_PARAMS_VERSION : Z := 0.
Definition kSecKeySecurePassphrase : Z := 2.
Definition kSecFormatPKCS12 : Z := 12.

(** A native string as the fake layer holds it: its length in UTF-16 code
    units (what [CFStringGetLength] answers) and its UTF-8 bytes, when it
    has an UTF-8 form at all. *)
Record NativeString := mkNativeString {
  ns_length : N;
  ns_cstring : option string
}.

Inductive CFTypeID :=
| StringTypeID | DataTypeID | NumberTypeID | BooleanTypeID
| IdentityTypeID | CertificateTypeID.

Inductive CFObject :=
| CFStringObj (s : NativeString)
| CFDataObj (bytes : list Byte.byte)
| CFNumberObj (n : Z)
| CFBooleanObj (b : bool)
| SecIdentityObj
| SecCertificateObj (der : option (list Byte.byte)).

(** [C.CFTypeRef]: a nil pointer, or the address of a native object. *)
Inductive CFTypeRef :=
| NULL
| Ref (addr : nat) (obj : CFObject).

Definition type_id_of (o : CFObject) : CFTypeID :=
  match o with
  | CFStringObj _ => StringTypeID
  | CFDataObj _ => DataTypeID
  | CFNumberObj _ => NumberTypeID
  | CFBooleanObj _ => BooleanTypeID
  | SecIdentityObj => IdentityTypeID
  | SecCertificateObj _ => CertificateTypeID
  end.

Definition CFTypeID_eqb (a b : CFTypeID) : bool :=
  match a, b with
  | StringTypeID, StringTypeID | DataTypeID, DataTypeID
  | NumberTypeID, NumberTypeID | BooleanTypeID, BooleanTypeID
  | IdentityTypeID, IdentityTypeID | CertificateTypeID, CertificateTypeID => true
  | _, _ => false
  end.

(** [*C.char] obtained from [C.CString]: a malloc'ed block and its bytes. *)
Record CString := mkCString { cs_addr : nat; cs_bytes : string }.

(** A dictionary of a search result: keys are native strings, compared by
    content; values are arbitrary references. *)
Record CFDictionaryRef := mkDict {
  dict_addr : nat;
  dict_entries : list (string * CFTypeRef)
}.

Record CFArrayRef := mkArray {
  arr_addr : nat;
  arr_items : list CFDictionaryRef
}.

(** [C.SecItemImportExportKeyParameters] *)
Record SecItemImportExportKeyParameters := mkParams {
  version : Z;
  flags : Z;
  passphrase : CFTypeRef;
  alertTitle : CFTypeRef;
  alertPrompt : CFTypeRef;
  keyUsage : CFTypeRef;
  keyAttributes : CFTypeRef
}.

(** Keys and values of the search query [FindIdentity] builds. *)
Inductive QueryKey := kSecClass | kSecMatchLimit | kSecReturnAttributes | kSecReturnRef.
Inductive QueryValue := kSecClassIdentity | kSecMatchLimitAll | kCFBooleanTrue.
Definition Query := list (QueryKey * QueryValue).

(** ** Go-side data *)

(** The error values of the package, one constructor per [errors.New] /
    [fmt.Errorf] site; wrapped errors keep the error they format. *)
Inductive error :=
| ErrSecItemExport (status : OSStatus)
    (* "SecItemExport: error (OSStatus): %d" *)
| ErrExportEmpty
    (* "ExportFromKeychain: failed to convert export data - nil or empty" *)
| ErrWriteFile (e : string)
    (* "ExportFromKeychain: failed to write into file: %s" *)
| ErrCopyMatch (status : OSStatus)
    (* "Failed to call SecItemCopyMatch - OSStatus: %d" *)
| ErrCopyData
    (* "GetCertificateDataFromIdentityRef: SecCertificateCopyData: Failed to convert certificate data" *)
| ErrParse (e : string)
    (* error of x509.ParseCertificate *)
| ErrFindIdentityFailed (e : error)
    (* "Failed to find Identity, error: %s" *)
| ErrReadCertificate (e : error)
    (* "Failed to read certificate data, error: %s" *)
| ErrNoIdentity
    (* "No Identity (certificate + related private key) found in your Keychain!" *)
| ErrLabl (e : error)
    (* "FindIdentity: failed to get 'labl' property: %s" *)
| ErrVRef (e : error)
    (* "FindIdentity: failed to get 'v_Ref' property: %s" *)
| ErrKeyDoesntExist
    (* "getCFDictValueRef: Key doesn't exist" *)
| ErrNilValueReturned
    (* "getCFDictValueCFStringRef: Nil value returned" *)
| ErrNotAString
    (* "getCFDictValueCFStringRef: value is not a string" *)
| ErrNilValue
    (* "getCFDictValueUTF8String: Nil value" *)
| ErrGetCString.
    (* "getCFDictValueUTF8String: CFStringGetCString: failed to convert value to string" *)

(** [type IdentityWithRefModel struct] *)
Record IdentityWithRefModel := mkIdentity {
  KeychainRef : CFTypeRef;
  Label : string
}.

(** A Go slice value is [nil] or a (possibly empty) sequence. *)
Inductive slice (A : Type) :=
| nil_slice
| mk_slice (l : list A).
Arguments nil_slice {A}.
Arguments mk_slice {A} l.

Definition elems {A} (s : slice A) : list A :=
  match s with nil_slice => [] | mk_slice l => l end.

Definition len {A} (s : slice A) : Z := Z.of_nat (List.length (elems s)).

(** ** The instrumented log *)

Inductive Call :=
| C_CString (s : string) (p : nat)
| C_free (p : nat)
| C_CFStringCreateWithCString (p : nat) (h : nat)
| C_CFArrayCreate (values : list CFTypeRef) (h : nat)
| C_SecItemExport (arr : nat) (format flags : Z)
                  (params : SecItemImportExportKeyParameters) (status : OSStatus)
| C_CFRelease (h : nat)
| C_CFRetain (h : nat)
| C_CFDataGetBytePtr (h : nat)
| C_CFDataGetLength (h : nat)
| C_GoBytes (n : Z)
| C_CFDictionaryCreateMutable (h : nat)
| C_CFDictionaryAddValue (h : nat) (k : QueryKey) (v : QueryValue)
| C_SecItemCopyMatching (q : Query) (status : OSStatus)
| C_CFArrayGetCount (h : nat)
| C_CFArrayGetValueAtIndex (h : nat) (i : CFIndex)
| C_CFDictionaryGetValueIfPresent (d : nat) (key : CFTypeRef)
| C_CFDictionaryGetValue (d : nat) (key : CFTypeRef)
| C_CFGetTypeID (h : CFTypeRef)
| C_CFStringGetTypeID
| C_CFStringGetLength (h : nat)
| C_CFStringGetMaximumSizeForEncoding (n : CFIndex)
| C_CFStringGetCString (h : nat) (bufferSize : CFIndex)
| C_GoString
| C_SecIdentityCopyCertificate (identity : CFTypeRef) (status : OSStatus)
| C_SecCertificateCopyData (cert : nat) (h : option nat)
| Go_make_bytes (n : Z)
| Go_WriteBytesToFile (path : string) (bytes : list Byte.byte)
| Go_ParseCertificate
| Go_CheckCertificateValidity.

(** The calls that cross into C; the [Go_] entries are host-side. *)
Definition is_native (c : Call) : bool :=
  match c with
  | Go_make_bytes _ | Go_WriteBytesToFile _ _
  | Go_ParseCertificate | Go_CheckCertificateValidity => false
  | _ => true
  end.

(** What the keychain, the file system and the certificate helpers answer:
    the search result (a status and the dictionaries of the result array),
    the export result (a status and the container bytes), the certificate
    paired with an identity, [fileutil.WriteBytesToFile],
    [x509.ParseCertificate] and [certutil.CheckCertificateValidity]. *)
Record World (Certificate : Type) := mkWorld {
  keychain_search : Query -> OSStatus * list CFDictionaryRef;
  keychain_export : list CFTypeRef -> Z -> Z -> SecItemImportExportKeyParameters ->
                    OSStatus * list Byte.byte;
  identity_certificate : CFTypeRef -> OSStatus * CFTypeRef;
  WriteBytesToFile_ : string -> list Byte.byte -> option string;
  ParseCertificate_ : list Byte.byte -> Certificate + string;
  CheckCertificateValidity_ : Certificate -> option string
}.
Arguments keychain_search {Certificate} _ _.
Arguments keychain_export {Certificate} _ _ _ _ _.
Arguments identity_certificate {Certificate} _ _.
Arguments WriteBytesToFile_ {Certificate} _ _ _.
Arguments ParseCertificate_ {Certificate} _ _.
Arguments CheckCertificateValidity_ {Certificate} _ _.

(** ** The monad: a call log, a fresh-address counter, the pending defers *)

Record Native := mkNative {
  calls : list Call;
  next : nat;
  deferred : list Call
}.

Definition start : Native := mkNative [] 0 [].

(** A Go function returns, panics (deferred calls still run), or the
    process dies inside C (nothing runs after that). *)
Inductive Outcome (A : Type) :=
| Done (a : A)
| Panic (msg : string)
| Crash (msg : string).
Arguments Done {A} a.
Arguments Panic {A} msg.
Arguments Crash {A} msg.

Definition M (A : Type) := Native -> Outcome A * Native.

Definition ret {A} (a : A) : M A := fun st => (Done a, st).

Definition bind {A B} (m : M A) (k : A -> M B) : M B :=
  fun st =>
    match m st with
    | (Done a, st') => k a st'
    | (Panic msg, st') => (Panic msg, st')
    | (Crash msg, st') => (Crash msg, st')
    end.

Declare Scope go_scope.
Delimit Scope go_scope with go.
Notation "x <- m ;; k" := (bind m (fun x => k))
  (at level 61, m at next level, right associativity) : go_scope.
Notation "m ;; k" := (bind m (fun _ => k))
  (at level 61, right associativity) : go_scope.
Local Open Scope go_scope.

Definition panic {A} (msg : string) : M A := fun st => (Panic msg, st).
Definition crash {A} (msg : string) : M A := fun st => (Crash msg, st).

Definition call (c : Call) : M unit :=
  fun st => (Done tt, mkNative (calls st ++ [c]) (next st) (deferred st)).

Definition fresh : M nat :=
  fun st => (Done (next st), mkNative (calls st) (S (next st)) (deferred st)).

(** [defer c]: pushed on the function's stack, run last-in first-out. *)
Definition defer (c : Call) : M unit :=
  fun st => (Done tt, mkNative (calls st) (next st) (c :: deferred st)).

(** A function body with its own defer stack.  On return and on panic the
    deferred calls run; on a crash inside C they do not. *)
Definition func {A} (body : M A) : M A :=
  fun st =>
    match body (mkNative (calls st) (next st) []) with
    | (Crash msg, st') => (Crash msg, mkNative (calls st') (next st') (deferred st))
    | (r, st') => (r, mkNative (calls st' ++ deferred st') (next st') (deferred st))
    end.

Arguments bind {A B} m k st /.
Arguments ret {A} a st /.
Arguments call c st /.
Arguments fresh st /.
Arguments defer c st /.
Arguments func {A} body st /.
Arguments panic {A} msg st /.
Arguments crash {A} msg st /.

Definition result {A} (m : M A) : Outcome A := fst (m start).
Definition trace {A} (m : M A) : list Call := calls (snd (m start)).

(** ** Host helpers *)

(** [C.GoString]: the bytes before the first NUL. *)
Fixpoint GoString (buf : string) : string :=
  match buf with
  | EmptyString => EmptyString
  | String c rest =>
      if Ascii.eqb c "000"%char then EmptyString else String c (GoString rest)
  end.

(** [strings.HasPrefix] and [strings.Contains] on byte strings. *)
Fixpoint strings_HasPrefix (s pre : string) {struct pre} : bool :=
  match pre, s with
  | EmptyString, _ => true
  | String _ _, EmptyString => false
  | String a pre', String b s' => Ascii.eqb a b && strings_HasPrefix s' pre'
  end.

Fixpoint strings_Contains (s substr : string) : bool :=
  strings_HasPrefix s substr ||
  match s with
  | EmptyString => false
  | String _ s' => strings_Contains s' substr
  end.

(** ** Native calls of the fake layer *)

Definition C_CString_ (s : string) : M CString :=
  p <- fresh ;;
  call (C_CString s p) ;;
  ret (mkCString p s).

(** [CFDictionaryGetValue]: the value stored under a key equal to [key],
    NULL when there is none. *)
Fixpoint assoc_lookup (k : string) (l : list (string * CFTypeRef)) : option CFTypeRef :=
  match l with
  | [] => None
  | (k', v) :: rest => if String.eqb k k' then Some v else assoc_lookup k rest
  end.

Definition key_content (key : CFTypeRef) : option string :=
  match key with
  | Ref _ (CFStringObj ns) => ns_cstring ns
  | _ => None
  end.

Definition dict_find (dict : CFDictionaryRef) (key : CFTypeRef) : option CFTypeRef :=
  match key_content key with
  | Some k => assoc_lookup k (dict_entries dict)
  | None => None
  end.

(** [CFDictionaryGetValueIfPresent(dict, key, value)]: answers whether the
    key is present and, when [value] is not NULL, stores the value there.
    The second component is what is written through [value]. *)
Definition CFDictionaryGetValueIfPresent (dict : CFDictionaryRef) (key : CFTypeRef)
    (value : option CFTypeRef) : M (bool * option CFTypeRef) :=
  call (C_CFDictionaryGetValueIfPresent (dict_addr dict) key) ;;
  match dict_find dict key with
  | Some v => ret (true, match value with Some _ => Some v | None => None end)
  | None => ret (false, value)
  end.

Definition CFDictionaryGetValue (dict : CFDictionaryRef) (key : CFTypeRef) : M CFTypeRef :=
  call (C_CFDictionaryGetValue (dict_addr dict) key) ;;
  match dict_find dict key with
  | Some v => ret v
  | None => ret NULL
  end.

(** [CFStringGetMaximumSizeForEncoding(length, kCFStringEncodingUTF8)] *)
Definition CFStringGetMaximumSizeForEncoding (length : CFIndex) : CFIndex :=
  if length >? LONG_MAX / 3 then kCFNotFound else length * 3.

(** [CFStringGetCString(s, buffer, bufferSize, kCFStringEncodingUTF8)]:
    the NUL-terminated UTF-8 form when it exists and fits. *)
Definition CFStringGetCString (s : NativeString) (bufferSize : CFIndex) : option string :=
  match ns_cstring s with
  | Some bytes =>
      if Z.of_nat (String.length bytes) + 1 <=? bufferSize
      then Some (bytes ++ String "000"%char EmptyString)
      else None
  | None => None
  end.

Definition CFRelease (h : nat) : M unit := call (C_CFRelease h).

(** [CFRetain(NULL)] faults inside CoreFoundation. *)
Definition CFRetain (v : CFTypeRef) : M CFTypeRef :=
  match v with
  | NULL => crash "CFRetain: NULL"
  | Ref a _ => call (C_CFRetain a) ;; ret v
  end.

Definition CFGetTypeID (v : CFTypeRef) : M CFTypeID :=
  match v with
  | NULL => crash "CFGetTypeID: NULL"
  | Ref _ o => call (C_CFGetTypeID v) ;; ret (type_id_of o)
  end.

Definition CFStringGetTypeID : M CFTypeID :=
  call C_CFStringGetTypeID ;; ret StringTypeID.

(** [convertCStringToCFString]: [CFStringCreateWithCString] on a C string.
    The source passes ASCII literals only, for which the length in code
    units is the length in bytes. *)
Definition convertCStringToCFString (cstring : CString) : M CFTypeRef :=
  h <- fresh ;;
  call (C_CFStringCreateWithCString (cs_addr cstring) h) ;;
  ret (Ref h (CFStringObj
         (mkNativeString (N.of_nat (String.length (cs_bytes cstring)))
                         (Some (cs_bytes cstring))))).

(** The largest allocation the 64-bit Go runtime accepts, in bytes. *)
Definition maxAlloc : Z := 2 ^ 48.
Arguments maxAlloc : simpl never.

(** [make([]byte, n, n)]: a negative length and a length above the
    allocation limit both panic.  Below the limit the allocation is taken to
    succeed. *)
Definition make_bytes (n : Z) : M unit :=
  if (n <? 0) || (n >? maxAlloc) then panic "makeslice: len out of range"
  else call (Go_make_bytes n).

(** [(C.int)(x)]: the low 32 bits of [x] read as a signed number. *)
Definition C_int (x : Z) : Z := (x + 2 ^ 31) mod 2 ^ 32 - 2 ^ 31.
Arguments C_int x : simpl never.

(** [C.GoBytes(p, n)] on a block holding [bytes]: a copy of its first [n]
    bytes; a negative [n] panics. *)
Definition GoBytes (bytes : list Byte.byte) (n : Z) : M (list Byte.byte) :=
  call (C_GoBytes n) ;;
  if n <? 0 then panic "gobytes: length out of range"
  else ret (firstn (Z.to_nat n) bytes).

(** [convertCFDataRefToGoBytes]: the length [CFDataGetLength] answers is
    narrowed to [C.int] before it reaches [C.GoBytes]. *)
Definition convertCFDataRefToGoBytes (cfdata : CFTypeRef) : M (list Byte.byte) :=
  match cfdata with
  | Ref h (CFDataObj bytes) =>
      call (C_CFDataGetBytePtr h) ;;
      call (C_CFDataGetLength h) ;;
      GoBytes bytes (C_int (Z.of_nat (List.length bytes)))
  | _ => crash "CFDataGetBytePtr: not a CFData"
  end.

(** [getCFDictValueRef]: [retVal] is still nil when it is converted to the
    out-pointer of [CFDictionaryGetValueIfPresent], so the native call gets
    a NULL [value] argument and only its Boolean answer is used. *)
Definition getCFDictValueRef (dict : CFDictionaryRef) (key : CFTypeRef)
    : M (CFTypeRef * option error) :=
  let retVal : option CFTypeRef := None in
  r <- CFDictionaryGetValueIfPresent dict key retVal ;;
  let exist := fst r in
  if negb exist then ret (NULL, Some ErrKeyDoesntExist)
  else
    v <- CFDictionaryGetValue dict key ;;
    ret (v, None).

(** [getCFDictValueCFStringRef] *)
Definition getCFDictValueCFStringRef (dict : CFDictionaryRef) (key : CFTypeRef)
    : M (CFTypeRef * option error) :=
  r <- getCFDictValueRef dict key ;;
  match snd r with
  | Some err => ret (NULL, Some err)
  | None =>
      let val := fst r in
      match val with
      | NULL => ret (NULL, Some ErrNilValueReturned)
      | Ref _ _ =>
          tid <- CFGetTypeID val ;;
          sid <- CFStringGetTypeID ;;
          if negb (CFTypeID_eqb tid sid) then ret (NULL, Some ErrNotAString)
          else ret (val, None)
      end
  end.

(** [getCFDictValueUTF8String] *)
Definition getCFDictValueUTF8String (dict : CFDictionaryRef) (key : CFTypeRef)
    : M (string * option error) :=
  r <- getCFDictValueCFStringRef dict key ;;
  match snd r with
  | Some err => ret ("", Some err)
  | None =>
      match fst r with
      | Ref h (CFStringObj ns) =>
          call (C_CFStringGetLength h) ;;
          let strLen := Z.of_N (ns_length ns) in
          call (C_CFStringGetMaximumSizeForEncoding strLen) ;;
          let charUTF8Len := CFStringGetMaximumSizeForEncoding strLen + 1 in
          make_bytes charUTF8Len ;;
          (* &cstrBytes[0] *)
          if charUTF8Len <? 1 then panic "index out of range"
          else
            call (C_CFStringGetCString h charUTF8Len) ;;
            match CFStringGetCString ns charUTF8Len with
            | None => ret ("", Some ErrGetCString)
            | Some buf => call C_GoString ;; ret (GoString buf, None)
            end
      | Ref _ _ => crash "CFStringGetLength: not a CFString"
      | NULL => ret ("", Some ErrNilValue)
      end
  end.

(** [ReleaseRef], [ReleaseRefList], [ReleaseIdentityWithRefList],
    [CreateEmptyCFTypeRefSlice] *)
Definition ReleaseRef (refItem : CFTypeRef) : M unit :=
  match refItem with
  | NULL => crash "CFRelease: NULL"
  | Ref a _ => CFRelease a
  end.

Fixpoint ReleaseRefList (refItems : list CFTypeRef) : M unit :=
  match refItems with
  | [] => ret tt
  | itm :: rest => ReleaseRef itm ;; ReleaseRefList rest
  end.

Fixpoint ReleaseIdentityWithRefList (refItems : list IdentityWithRefModel) : M unit :=
  match refItems with
  | [] => ret tt
  | itm :: rest => ReleaseRef (KeychainRef itm) ;; ReleaseIdentityWithRefList rest
  end.

Definition CreateEmptyCFTypeRefSlice : slice CFTypeRef := mk_slice [].

Section Keychain.

Context {Certificate : Type}.
Variable W : World Certificate.

Definition promptString : string :=
  "Enter a password which will be used to protect the exported items".

(** [ExportFromKeychain] *)
Definition ExportFromKeychain (itemRefsToExport : slice CFTypeRef)
    (outputFilePath : string) (isAskForPassword : bool) : M (option error) :=
  func (
    passphraseCString <- C_CString_ "" ;;
    defer (C_free (cs_addr passphraseCString)) ;;
    exportParams <-
      (if isAskForPassword then
         promptText <- C_CString_ promptString ;;
         defer (C_free (cs_addr promptText)) ;;
         prompt <- convertCStringToCFString promptText ;;
         ret (mkParams SEC_KEY_IMPORT_EXPORT_PARAMS_VERSION
                       kSecKeySecurePassphrase NULL NULL prompt NULL NULL)
       else
         pass <- convertCStringToCFString passphraseCString ;;
         ret (mkParams SEC_KEY_IMPORT_EXPORT_PARAMS_VERSION
                       0 pass NULL NULL NULL NULL)) ;;
    (* ptr := &itemRefsToExport[0] *)
    match elems itemRefsToExport with
    | [] => panic "index out of range"
    | _ :: _ =>
        cfArrayForExport <- fresh ;;
        call (C_CFArrayCreate (elems itemRefsToExport) cfArrayForExport) ;;
        let r := keychain_export W (elems itemRefsToExport)
                                 kSecFormatPKCS12 0 exportParams in
        let status := fst r in
        call (C_SecItemExport cfArrayForExport kSecFormatPKCS12 0 exportParams status) ;;
        if negb (status =? errSecSuccess) then ret (Some (ErrSecItemExport status))
        else
          exportedData <- fresh ;;
          defer (C_CFRelease exportedData) ;;
          dataBytes <- convertCFDataRefToGoBytes (Ref exportedData (CFDataObj (snd r))) ;;
          if Z.of_nat (List.length dataBytes) <? 1 then ret (Some ErrExportEmpty)
          else
            call (Go_WriteBytesToFile outputFilePath dataBytes) ;;
            match WriteBytesToFile_ W outputFilePath dataBytes with
            | Some err => ret (Some (ErrWriteFile err))
            | None => ret None
            end
    end).

(** [GetCertificateDataFromIdentityRef]; the Go pair (certificate, error)
    has exactly one meaningful component, hence a sum. *)
Definition GetCertificateDataFromIdentityRef (identityRef : CFTypeRef)
    : M (Certificate + error) :=
  func (
    let r := identity_certificate W identityRef in
    let osStatusCode := fst r in
    call (C_SecIdentityCopyCertificate identityRef osStatusCode) ;;
    if negb (osStatusCode =? errSecSuccess) then ret (inr (ErrCopyMatch osStatusCode))
    else
      match snd r with
      | Ref c (SecCertificateObj None) =>
          call (C_SecCertificateCopyData c None) ;;
          ret (inr ErrCopyData)
      | Ref c (SecCertificateObj (Some der)) =>
          certificateCFData <- fresh ;;
          call (C_SecCertificateCopyData c (Some certificateCFData)) ;;
          defer (C_CFRelease certificateCFData) ;;
          certData <- convertCFDataRefToGoBytes (Ref certificateCFData (CFDataObj der)) ;;
          call Go_ParseCertificate ;;
          match ParseCertificate_ W certData with
          | inl cert => ret (inl cert)
          | inr e => ret (inr (ErrParse e))
          end
      | _ => crash "SecCertificateCopyData: not a certificate"
      end).

Definition label_matches (isFullLabelMatch : bool) (identityLabel labl : string) : bool :=
  if isFullLabelMatch then String.eqb labl identityLabel
  else strings_Contains labl identityLabel.

(** The body of the [for i := 0; i < identitiesCount; i++] loop of
    [FindIdentity], over the entries from index [i] on. *)
Fixpoint FindIdentity_loop (identityLabel : string) (isFullLabelMatch : bool)
    (identitiesArrRef : nat) (entries : list CFDictionaryRef) (i : CFIndex)
    (retIdentityRefs : list IdentityWithRefModel)
    : M (slice IdentityWithRefModel * option error) :=
  match entries with
  | [] => ret (mk_slice retIdentityRefs, None)
  | aIdentityDictRef :: rest =>
      call (C_CFArrayGetValueAtIndex identitiesArrRef i) ;;
      lablCSting <- C_CString_ "labl" ;;
      defer (C_free (cs_addr lablCSting)) ;;
      vrefCSting <- C_CString_ "v_Ref" ;;
      defer (C_free (cs_addr vrefCSting)) ;;
      lablKey <- convertCStringToCFString lablCSting ;;
      l <- getCFDictValueUTF8String aIdentityDictRef lablKey ;;
      match snd l with
      | Some err => ret (nil_slice, Some (ErrLabl err))
      | None =>
          let labl := fst l in
          if negb (label_matches isFullLabelMatch identityLabel labl)
          then FindIdentity_loop identityLabel isFullLabelMatch identitiesArrRef
                                 rest (i + 1) retIdentityRefs
          else
            vrefKey <- convertCStringToCFString vrefCSting ;;
            v <- getCFDictValueRef aIdentityDictRef vrefKey ;;
            match snd v with
            | Some err => ret (nil_slice, Some (ErrVRef err))
            | None =>
                vrefRef <- CFRetain (fst v) ;;
                FindIdentity_loop identityLabel isFullLabelMatch identitiesArrRef
                                  rest (i + 1)
                                  (retIdentityRefs ++ [mkIdentity vrefRef labl])
            end
      end
  end.

Definition identityQuery : Query :=
  [ (kSecClass, kSecClassIdentity);
    (kSecMatchLimit, kSecMatchLimitAll);
    (kSecReturnAttributes, kCFBooleanTrue);
    (kSecReturnRef, kCFBooleanTrue) ].

Fixpoint add_values (h : nat) (q : Query) : M unit :=
  match q with
  | [] => ret tt
  | (k, v) :: rest => call (C_CFDictionaryAddValue h k v) ;; add_values h rest
  end.

(** [FindIdentity] *)
Definition FindIdentity (identityLabel : string) (isFullLabelMatch : bool)
    : M (slice IdentityWithRefModel * option error) :=
  func (
    queryDict <- fresh ;;
    call (C_CFDictionaryCreateMutable queryDict) ;;
    defer (C_CFRelease queryDict) ;;
    add_values queryDict identityQuery ;;
    let r := keychain_search W identityQuery in
    let osStatusCode := fst r in
    call (C_SecItemCopyMatching identityQuery osStatusCode) ;;
    if negb (osStatusCode =? errSecSuccess)
    then ret (nil_slice, Some (ErrCopyMatch osStatusCode))
    else
      resultRefs <- fresh ;;
      defer (C_CFRelease resultRefs) ;;
      let identitiesArrRef := mkArray resultRefs (snd r) in
      call (C_CFArrayGetCount resultRefs) ;;
      let identitiesCount := Z.of_nat (List.length (arr_items identitiesArrRef)) in
      if identitiesCount <? 1 then ret (nil_slice, Some ErrNoIdentity)
      else
        FindIdentity_loop identityLabel isFullLabelMatch resultRefs
                          (arr_items identitiesArrRef) 0 []).

(** The [for _, aIdentityRef := range foundIdentityRefs] loop of
    [FindAndValidateIdentity]. *)
Fixpoint validity_loop (foundIdentityRefs validIdentityRefs : list IdentityWithRefModel)
    : M (slice IdentityWithRefModel * option error) :=
  match foundIdentityRefs with
  | [] => ret (mk_slice validIdentityRefs, None)
  | aIdentityRef :: rest =>
      c <- GetCertificateDataFromIdentityRef (KeychainRef aIdentityRef) ;;
      match c with
      | inr err => ret (mk_slice validIdentityRefs, Some (ErrReadCertificate err))
      | inl cert =>
          call Go_CheckCertificateValidity ;;
          match CheckCertificateValidity_ W cert with
          | Some _ => validity_loop rest validIdentityRefs
          | None => validity_loop rest (validIdentityRefs ++ [aIdentityRef])
          end
      end
  end.

(** [FindAndValidateIdentity] *)
Definition FindAndValidateIdentity (identityLabel : string) (isFullLabelMatch : bool)
    : M (slice IdentityWithRefModel * option error) :=
  r <- FindIdentity identityLabel isFullLabelMatch ;;
  match snd r with
  | Some err => ret (nil_slice, Some (ErrFindIdentityFailed err))
  | None =>
      let foundIdentityRefs := fst r in
      if len foundIdentityRefs <? 1 then ret (nil_slice, None)
      else validity_loop (elems foundIdentityRefs) []
  end.

End Keychain.

(** ** Reading the log *)

(** Parameters handed to [SecItemExport], in call order. *)
Fixpoint export_params (t : list Call) : list SecItemImportExportKeyParameters :=
  match t with
  | [] => []
  | C_SecItemExport _ _ _ p _ :: rest => p :: export_params rest
  | _ :: rest => export_params rest
  end.

(** Calls that hand the caller something to free or release: [C.CString]
    (malloc), the Create/Copy functions when they succeed, and [CFRetain]. *)
Definition acquires (c : Call) : bool :=
  match c with
  | C_CString _ _ | C_CFStringCreateWithCString _ _ | C_CFArrayCreate _ _
  | C_CFRetain _ | C_CFDictionaryCreateMutable _
  | C_SecCertificateCopyData _ (Some _) => true
  | C_SecItemExport _ _ _ _ status
  | C_SecItemCopyMatching _ status
  | C_SecIdentityCopyCertificate _ status => status =? errSecSuccess
  | _ => false
  end.

Definition releases (c : Call) : bool :=
  match c with
  | C_free _ | C_CFRelease _ => true
  | _ => false
  end.

Definition acquired (t : list Call) : nat := List.length (filter acquires t).
Definition released (t : list Call) : nat := List.length (filter releases t).

Definition is_array_create (c : Call) : bool :=
  match c with C_CFArrayCreate _ _ => true | _ => false end.
Definition is_export (c : Call) : bool :=
  match c with C_SecItemExport _ _ _ _ _ => true | _ => false end.
Definition is_search (c : Call) : bool :=
  match c with C_SecItemCopyMatching _ _ => true | _ => false end.

(** The interactive secure-passphrase bit of the parameter flags. *)
Definition secure_passphrase_flag_set (p : SecItemImportExportKeyParameters) : bool :=
  negb (Z.land (flags p) kSecKeySecurePassphrase =? 0).

(** Sizes of the byte buffers the host allocates, in order. *)
Fixpoint allocations (t : list Call) : list Z :=
  match t with
  | [] => []
  | Go_make_bytes n :: rest => n :: allocations rest
  | _ :: rest => allocations rest
  end.

Definition is_certificate_call (c : Call) : bool :=
  match c with
  | C_SecIdentityCopyCertificate _ _ | C_SecCertificateCopyData _ _
  | Go_ParseCertificate | Go_CheckCertificateValidity => true
  | _ => false
  end.

Definition not_certificate_call (c : Call) : bool := negb (is_certificate_call c).

(** ** What the code reads from one search entry or one identity *)

(** The key strings [FindIdentity] builds with [convertCStringToCFString]. *)
Definition lablKey (h : nat) : CFTypeRef :=
  Ref h (CFStringObj (mkNativeString 4 (Some "labl"))).
Definition vrefKey (h : nat) : CFTypeRef :=
  Ref h (CFStringObj (mkNativeString 5 (Some "v_Ref"))).

(** Outcome of the label extraction and of the reference lookup on an
    entry, as [getCFDictValueUTF8String] and [getCFDictValueRef] compute
    them. *)
Definition entry_label (d : CFDictionaryRef) : Outcome (string * option error) :=
  result (getCFDictValueUTF8String d (lablKey 0)).
Definition entry_ref (d : CFDictionaryRef) : Outcome (CFTypeRef * option error) :=
  result (getCFDictValueRef d (vrefKey 0)).

Definition label_of (d : CFDictionaryRef) : string :=
  match entry_label d with Done (l, _) => l | _ => "" end.
Definition ref_of (d : CFDictionaryRef) : CFTypeRef :=
  match entry_ref d with Done (v, _) => v | _ => NULL end.
Definition record_of (d : CFDictionaryRef) : IdentityWithRefModel :=
  mkIdentity (ref_of d) (label_of d).

Definition accepts (isFullLabelMatch : bool) (identityLabel : string)
    (d : CFDictionaryRef) : bool :=
  label_matches isFullLabelMatch identityLabel (label_of d).

(** The entry goes through the loop body without error, panic or fault:
    its label is extracted, and when the label matches, its reference is
    found and is not nil. *)
Definition entry_readable (isFullLabelMatch : bool) (identityLabel : string)
    (d : CFDictionaryRef) : bool :=
  match entry_label d with
  | Done (l, None) =>
      if label_matches isFullLabelMatch identityLabel l
      then match entry_ref d with
           | Done (Ref _ _, None) => true
           | _ => false
           end
      else true
  | _ => false
  end.

(** The entry's label is extracted and does not match. *)
Definition rejects (isFullLabelMatch : bool) (identityLabel : string)
    (d : CFDictionaryRef) : bool :=
  match entry_label d with
  | Done (l, None) => negb (label_matches isFullLabelMatch identityLabel l)
  | _ => false
  end.

(** The error the loop body returns on the entry, if it returns one. *)
Definition entry_failure (isFullLabelMatch : bool) (identityLabel : string)
    (d : CFDictionaryRef) : option error :=
  match entry_label d with
  | Done (_, Some e) => Some (ErrLabl e)
  | Done (l, None) =>
      if label_matches isFullLabelMatch identityLabel l
      then match entry_ref d with
           | Done (_, Some e) => Some (ErrVRef e)
           | _ => None
           end
      else None
  | _ => None
  end.

Section Readings.

Context {Certificate : Type}.
Variable W : World Certificate.

(** Outcome of the certificate extraction on an identity reference. *)
Definition certificate_of (identityRef : CFTypeRef) : Outcome (Certificate + error) :=
  result (GetCertificateDataFromIdentityRef W identityRef).

Definition extracts (a : IdentityWithRefModel) : bool :=
  match certificate_of (KeychainRef a) with
  | Done (inl _) => true
  | _ => false
  end.

Definition passes_validity (a : IdentityWithRefModel) : bool :=
  match certificate_of (KeychainRef a) with
  | Done (inl cert) =>
      match CheckCertificateValidity_ W cert with
      | None => true
      | Some _ => false
      end
  | _ => false
  end.

End Readings.

(** All calls logged or pending satisfy [P]. *)
Definition all_calls (P : Call -> bool) (st : Native) : Prop :=
  Forall (fun c => P c = true) (calls st)
  /\ Forall (fun c => P c = true) (deferred st).

(** [m] only ever logs or defers calls satisfying [P]. *)
Definition keeps (P : Call -> bool) {A} (m : M A) : Prop :=
  forall st, all_calls P st -> all_calls P (snd (m st)).

(** ** A small keychain to run the code on *)

Module Demo.

Definition str (a : nat) (s : string) : CFTypeRef :=
  Ref a (CFStringObj (mkNativeString (N.of_nat (String.length s)) (Some s))).

(** A search entry at address [a]: a label and an identity reference. *)
Definition entry (a : nat) (label : string) : CFDictionaryRef :=
  mkDict a [("labl", str (a + 1) label); ("v_Ref", Ref (a + 2) SecIdentityObj)].

(** An entry without the "labl" attribute. *)
Definition unlabelled (a : nat) : CFDictionaryRef :=
  mkDict a [("v_Ref", Ref (a + 2) SecIdentityObj)].

(** An entry whose label has no UTF-8 form, so [CFStringGetCString] fails. *)
Definition unconvertible (a : nat) : CFDictionaryRef :=
  mkDict a [("labl", Ref (a + 1) (CFStringObj (mkNativeString 3 None)));
            ("v_Ref", Ref (a + 2) SecIdentityObj)].

Definition identityA : CFTypeRef := Ref 102 SecIdentityObj.
Definition identityB : CFTypeRef := Ref 202 SecIdentityObj.
Definition identityC : CFTypeRef := Ref 302 SecIdentityObj.

Definition store : list CFDictionaryRef :=
  [entry 100 "iPhone Developer: A"; entry 200 "iPhone Developer: B"; entry 300 "Other"].

Definition certificate_bytes (identityRef : CFTypeRef) : list Byte.byte :=
  match identityRef with
  | Ref 102 _ => [Byte.x01]
  | Ref 202 _ => [Byte.x02]
  | _ => [Byte.x03]
  end.

(** Certificates are modelled by a serial number; number 2 is expired. *)
Definition parse (der : list Byte.byte) : nat + string :=
  match der with
  | [b] => inl (Byte.to_nat b)
  | _ => inr "malformed certificate"
  end.

Definition check (cert : nat) : option string :=
  if Nat.eqb cert 2 then Some "certificate expired" else None.

Definition with_store (entries : list CFDictionaryRef)
    (copy_certificate : CFTypeRef -> OSStatus * CFTypeRef) : World nat :=
  mkWorld nat
    (fun _ => (errSecSuccess, entries))
    (fun _ _ _ _ => (errSecSuccess, [Byte.x30; Byte.x82]))
    copy_certificate
    (fun _ _ => None)
    parse
    check.

(** Every identity has a certificate. *)
Definition world : World nat :=
  with_store store
    (fun r => (errSecSuccess, Ref 900 (SecCertificateObj (Some (certificate_bytes r))))).

(** The certificate of identity B cannot be copied. *)
Definition world_locked : World nat :=
  with_store store
    (fun r => match r with
              | Ref 202 _ => (-25308, NULL)
              | _ => (errSecSuccess, Ref 900 (SecCertificateObj (Some (certificate_bytes r))))
              end).

Definition world_empty : World nat :=
  with_store [] (fun _ => (-25300, NULL)).

Definition world_unlabelled : World nat :=
  with_store [entry 100 "iPhone Developer: A"; unlabelled 200; entry 300 "Other"]
    (fun _ => (-25300, NULL)).

End Demo.

(** ** More readings of the log *)

(** Blocks obtained from [C.CString] and blocks given to [C.free], by
    address, in call order. *)
Definition mallocs (t : list Call) : list nat :=
  flat_map (fun c => match c with C_CString _ p => [p] | _ => [] end) t.
Definition frees (t : list Call) : list nat :=
  flat_map (fun c => match c with C_free p => [p] | _ => [] end) t.

(** Objects given to [CFRetain] and to [CFRelease], by address. *)
Definition retained (t : list Call) : list nat :=
  flat_map (fun c => match c with C_CFRetain h => [h] | _ => [] end) t.
Definition released_refs (t : list Call) : list nat :=
  flat_map (fun c => match c with C_CFRelease h => [h] | _ => [] end) t.

(** Data objects whose bytes were read. *)
Definition data_reads (t : list Call) : list nat :=
  flat_map (fun c => match c with C_CFDataGetBytePtr h => [h] | _ => [] end) t.

Definition file_writes (t : list Call) : list (string * list Byte.byte) :=
  flat_map (fun c => match c with
                     | Go_WriteBytesToFile path bytes => [(path, bytes)]
                     | _ => []
                     end) t.

Definition searches (t : list Call) : list (Query * OSStatus) :=
  flat_map (fun c => match c with
                     | C_SecItemCopyMatching q status => [(q, status)]
                     | _ => []
                     end) t.

Definition array_creates (t : list Call) : list (list CFTypeRef * nat) :=
  flat_map (fun c => match c with
                     | C_CFArrayCreate values h => [(values, h)]
                     | _ => []
                     end) t.

(** Array, format and item flags of each [SecItemExport] call. *)
Definition export_calls (t : list Call) : list (nat * Z * Z) :=
  flat_map (fun c => match c with
                     | C_SecItemExport arr format fl _ _ => [(arr, format, fl)]
                     | _ => []
                     end) t.

Definition validity_checks (t : list Call) : nat :=
  List.length (filter (fun c => match c with
                                | Go_CheckCertificateValidity => true
                                | _ => false
                                end) t).

(** The calls [getCFDictValueRef] and [getCFDictValueUTF8String] make:
    look-ups and conversions that acquire and release nothing. *)
Definition is_lookup_call (c : Call) : bool :=
  match c with
  | C_CFDictionaryGetValueIfPresent _ _ | C_CFDictionaryGetValue _ _
  | C_CFGetTypeID _ | C_CFStringGetTypeID | C_CFStringGetLength _
  | C_CFStringGetMaximumSizeForEncoding _ | C_CFStringGetCString _ _
  | C_GoString | Go_make_bytes _ => true
  | _ => false
  end.

Definition non_null (r : CFTypeRef) : bool :=
  match r with NULL => false | Ref _ _ => true end.

Definition ref_addrs (l : list CFTypeRef) : list nat :=
  flat_map (fun r => match r with Ref a _ => [a] | NULL => [] end) l.

Definition is_certificate_ref (r : CFTypeRef) : bool :=
  match r with Ref _ (SecCertificateObj _) => true | _ => false end.

Definition NUL : ascii := "000"%char.

Fixpoint has_NUL (s : string) : bool :=
  match s with
  | EmptyString => false
  | String c rest => Ascii.eqb c NUL || has_NUL rest
  end.

(** [m] only appends its own calls to the log: it takes no address and
    defers nothing, and what it returns and logs does not depend on the
    state it starts from. *)
Definition reads {A} (m : M A) : Prop :=
  forall st, m st = (result m,
                     mkNative (calls st ++ trace m) (next st) (deferred st)).

(** Dictionaries created and arrays whose count was read, by address. *)
Definition dict_creates (t : list Call) : list nat :=
  flat_map (fun c => match c with C_CFDictionaryCreateMutable h => [h] | _ => [] end) t.
Definition array_counts (t : list Call) : list nat :=
  flat_map (fun c => match c with C_CFArrayGetCount h => [h] | _ => [] end) t.

Definition crashed {A} (o : Outcome A) : bool :=
  match o with Crash _ => true | _ => false end.

(** How the search loop moves the state: the C strings it allocates are
    exactly the ones whose [C.free] it defers, last allocated first; it frees
    and releases nothing itself and does not search. *)
Definition loop_frame (st st' : Native) : Prop :=
  exists ms,
    mallocs (calls st') = (mallocs (calls st) ++ ms)%list
    /\ deferred st' = (map C_free (rev ms) ++ deferred st)%list
    /\ frees (calls st') = frees (calls st)
    /\ released_refs (calls st') = released_refs (calls st)
    /\ searches (calls st') = searches (calls st)
    /\ array_counts (calls st') = array_counts (calls st)
    /\ dict_creates (calls st') = dict_creates (calls st).

(** The state in which [FindIdentity], started on the empty log, enters its
    loop: the query dictionary (address 0) is built, the search has
    succeeded, the count of the result array (address 1) has been read, and
    both releases are deferred. *)
Definition search_done : Native :=
  mkNative
    [C_CFDictionaryCreateMutable 0;
     C_CFDictionaryAddValue 0 kSecClass kSecClassIdentity;
     C_CFDictionaryAddValue 0 kSecMatchLimit kSecMatchLimitAll;
     C_CFDictionaryAddValue 0 kSecReturnAttributes kCFBooleanTrue;
     C_CFDictionaryAddValue 0 kSecReturnRef kCFBooleanTrue;
     C_SecItemCopyMatching identityQuery errSecSuccess;
     C_CFArrayGetCount 1]
    2
    [C_CFRelease 1; C_CFRelease 0].

(** Calls the search never makes: certificate extraction and validation,
    reading of data objects, export and file writing. *)
Definition outside_search (c : Call) : bool :=
  match c with
  | C_SecIdentityCopyCertificate _ _ | C_SecCertificateCopyData _ _
  | C_CFDataGetBytePtr _ | C_CFDataGetLength _ | C_GoBytes _
  | Go_ParseCertificate | Go_CheckCertificateValidity
  | C_CFArrayCreate _ _ | C_SecItemExport _ _ _ _ _
  | Go_WriteBytesToFile _ _ => true
  | _ => false
  end.

Definition not_data_read (c : Call) : bool :=
  match c with C_CFDataGetBytePtr _ => false | _ => true end.

(** ** More sample inputs *)

Module Samples.

(** A keychain that refuses the search (status -25293). *)
Definition denied : World nat :=
  mkWorld nat
    (fun _ => (-25293, []))
    (fun _ _ _ _ => (-25293, []))
    (fun _ => (-25293, NULL))
    (fun _ _ => None)
    Demo.parse
    Demo.check.

(** A native string of five code units with a NUL in the middle. *)
Definition cut_label : string := String "a" (String "b" (String NUL "cd")).

Definition cut_entry : CFDictionaryRef :=
  mkDict 400 [("labl", Ref 401 (CFStringObj (mkNativeString 5 (Some cut_label))))].

Definition recordA : IdentityWithRefModel :=
  mkIdentity Demo.identityA "iPhone Developer: A".
Definition recordB : IdentityWithRefModel :=
  mkIdentity Demo.identityB "iPhone Developer: B".
Definition recordC : IdentityWithRefModel :=
  mkIdentity Demo.identityC "Other".

End Samples.

(** Symbolic execution of a monadic body, arithmetic left folded. *)
Ltac go := cbn -[Z.ltb Z.eqb Z.gtb Z.leb Z.of_nat Z.of_N Z.add Z.mul Z.div List.length].

(** ** Generic facts about the monad *)

Lemma of_nat_length_cons_lt1 {A} (x : A) (l : list A) :
  (Z.of_nat (List.length (x :: l)) <? 1) = false.
Proof. apply Z.ltb_ge. simpl List.length. lia. Qed.

Lemma C_int_small (x : Z) : 0 <= x < 2 ^ 31 -> C_int x = x.
Proof.
  intros H. unfold C_int. change (2 ^ 31) with 2147483648 in *.
  change (2 ^ 32) with 4294967296. rewrite Z.mod_small; lia.
Qed.

(** Below 2^31 bytes the narrowing of the length changes nothing and the
    whole block is copied. *)
Lemma narrowed_copy_whole {A} (l : list A) :
  Z.of_nat (List.length l) < 2 ^ 31 ->
  (C_int (Z.of_nat (List.length l)) <? 0) = false
  /\ firstn (Z.to_nat (C_int (Z.of_nat (List.length l)))) l = l.
Proof.
  intros H. rewrite C_int_small by lia. split.
  - apply Z.ltb_ge. lia.
  - rewrite Nat2Z.id. apply firstn_all.
Qed.


Section MonadFacts.

Context {A B : Type}.

Lemma fst_func (body : M A) (st : Native) :
  fst (func body st) = fst (body (mkNative (calls st) (next st) [])).
Proof.
  unfold func. destruct (body _) as [[a|msg|msg] st']; reflexivity.
Qed.

Lemma bind_done (m : M A) (k : A -> M B) (st st' : Native) (a : A) :
  m st = (Done a, st') -> bind m k st = k a st'.
Proof. intros E. unfold bind. rewrite E. reflexivity. Qed.

Variable P : Call -> bool.

Lemma keeps_ret (a : A) : keeps P (ret a).
Proof. intros st H. exact H. Qed.

Lemma keeps_panic (msg : string) : keeps P (@panic A msg).
Proof. intros st H. exact H. Qed.

Lemma keeps_crash (msg : string) : keeps P (@crash A msg).
Proof. intros st H. exact H. Qed.

Lemma keeps_bind (m : M A) (k : A -> M B) :
  keeps P m -> (forall a, keeps P (k a)) -> keeps P (bind m k).
Proof.
  intros Hm Hk st H. specialize (Hm st H). unfold bind.
  destruct (m st) as [[a|msg|msg] st']; cbn [snd] in *; auto.
  apply Hk, Hm.
Qed.

Lemma keeps_func (body : M A) : keeps P body -> keeps P (func body).
Proof.
  intros Hb st [Hc Hd].
  assert (H0 : all_calls P (mkNative (calls st) (next st) [])) by (split; auto).
  specialize (Hb _ H0). unfold func.
  destruct (body _) as [[a|msg|msg] st']; destruct Hb as [Hc' Hd'];
    split; cbn [snd calls deferred] in *; auto using Forall_app.
  - apply Forall_app; auto.
  - apply Forall_app; auto.
Qed.

End MonadFacts.

Lemma keeps_call (P : Call -> bool) (c : Call) : P c = true -> keeps P (call c).
Proof.
  intros Hc st [H1 H2]. split; cbn; auto. apply Forall_app; auto.
Qed.

Lemma keeps_defer (P : Call -> bool) (c : Call) : P c = true -> keeps P (defer c).
Proof. intros Hc st [H1 H2]. split; cbn; auto. Qed.

Lemma keeps_fresh (P : Call -> bool) : keeps P fresh.
Proof. intros st [H1 H2]. split; cbn; auto. Qed.

Create HintDb keeps.
#[export] Hint Resolve keeps_ret keeps_panic keeps_crash keeps_fresh keeps_func : keeps.

(** Walks a monadic body, splitting at every bind and branch; [known]
    closes the calls of functions already dealt with. *)
Ltac keeps_with known :=
  repeat first
    [ known
    | apply keeps_call; reflexivity
    | apply keeps_defer; reflexivity
    | solve [ auto with keeps ]
    | match goal with
      | |- keeps _ (if ?b then _ else _) => destruct b
      | |- keeps _ (match ?x with _ => _ end) => destruct x
      | |- keeps _ (let _ := _ in _) => cbv zeta
      | |- keeps _ (func _) => apply keeps_func
      end
    | apply keeps_bind; [| intros ? ] ].

Ltac keeps_body := keeps_with fail.

(** ** Export *)

Section ExportFacts.

Context {Certificate : Type}.
Variable W : World Certificate.

(** C1.  On an empty identity slice the export does not return an error:
    indexing element 0 panics, after the passphrase (or prompt) string has
    already been created natively.  No array is created and no export or
    search is invoked. *)
Theorem ExportFromKeychain_empty_panics (outputFilePath : string)
    (isAskForPassword : bool) :
  let run := ExportFromKeychain W CreateEmptyCFTypeRefSlice outputFilePath
                                isAskForPassword in
  result run = Panic "index out of range"
  /\ trace run =
       (if isAskForPassword
        then [C_CString "" 0; C_CString promptString 1;
              C_CFStringCreateWithCString 1 2; C_free 1; C_free 0]
        else [C_CString "" 0; C_CFStringCreateWithCString 0 1; C_free 0])
  /\ existsb is_native (trace run) = true
  /\ existsb (fun c => is_array_create c || is_export c || is_search c)
             (trace run) = false.
Proof. destruct isAskForPassword; repeat split; reflexivity. Qed.

Ltac run_export :=
  unfold trace, result, ExportFromKeychain, start; go.

Ltac export_cases :=
  match goal with
  | |- context [keychain_export ?W ?items ?f ?a ?p] =>
      destruct (keychain_export W items f a p) as [status bytes]; go;
      destruct (Z.eqb_spec status errSecSuccess); go
  end;
  try match goal with
  | |- context [C_int ?z <? 0] => destruct (C_int z <? 0); go
  end;
  try match goal with
  | |- context [firstn ?n ?l] =>
      destruct (firstn n l) as [|b bs]; go;
      rewrite ?of_nat_length_cons_lt1; go
  end;
  try match goal with
  | |- context [WriteBytesToFile_ ?W ?p ?d] =>
      destruct (WriteBytesToFile_ W p d); go
  end.

(** C2.  On every exit path of an export of at least one identity, two of
    the objects acquired are never given back: the log has two more
    acquisitions than releases, and neither the array made by
    [CFArrayCreate] nor the string made by [CFStringCreateWithCString] is
    ever passed to [CFRelease]. *)
Theorem ExportFromKeychain_leaks (x : CFTypeRef) (xs : list CFTypeRef)
    (outputFilePath : string) (isAskForPassword : bool) :
  let t := trace (ExportFromKeychain W (mk_slice (x :: xs)) outputFilePath
                                     isAskForPassword) in
  acquired t = (released t + 2)%nat
  /\ (exists h, In (C_CFArrayCreate (x :: xs) h) t /\ ~ In (C_CFRelease h) t)
  /\ (exists p h, In (C_CFStringCreateWithCString p h) t /\ ~ In (C_CFRelease h) t).
Proof.
  destruct isAskForPassword; run_export; export_cases;
    (split; [ unfold acquired, released; cbn;
              rewrite ?Z.eqb_refl;
              repeat match goal with
                     | H : ?s <> errSecSuccess |- context [?s =? errSecSuccess] =>
                         rewrite (proj2 (Z.eqb_neq s errSecSuccess) H)
                     | H : ?s = errSecSuccess |- context [?s =? errSecSuccess] =>
                         rewrite H
                     end; reflexivity
            | split;
              [ eexists; split; [ cbn; auto 10 | cbn; intuition discriminate ]
              | do 2 eexists; split; [ cbn; auto 10 | cbn; intuition discriminate ] ] ]).
Qed.

(** C8.  The export reaches [SecItemExport] exactly once when there is an
    identity to export (and not at all otherwise).  With [isAskForPassword]
    false the parameters it passes have the secure-passphrase flag clear and
    carry an explicit passphrase string whose content is empty; with
    [isAskForPassword] true the flag is set and the passphrase is nil. *)
Theorem ExportFromKeychain_passphrase_mode (itemRefsToExport : slice CFTypeRef)
    (outputFilePath : string) (isAskForPassword : bool) :
  let ps := export_params (trace (ExportFromKeychain W itemRefsToExport
                                    outputFilePath isAskForPassword)) in
  List.length ps = match elems itemRefsToExport with [] => 0%nat | _ :: _ => 1%nat end
  /\ Forall (fun p =>
       if isAskForPassword
       then secure_passphrase_flag_set p = true /\ passphrase p = NULL
       else secure_passphrase_flag_set p = false
            /\ key_content (passphrase p) = Some "") ps.
Proof.
  destruct itemRefsToExport as [|[|x xs]];
    try (destruct isAskForPassword; cbn; (split; [reflexivity | constructor])).
  destruct isAskForPassword; run_export; export_cases;
    (split; [reflexivity | repeat constructor]).
Qed.

End ExportFacts.

(** ** Dictionary access and string conversion *)

Section DictFacts.

Variables (dict : CFDictionaryRef) (key : CFTypeRef).

Ltac run_dict :=
  unfold trace, result, getCFDictValueUTF8String, getCFDictValueCFStringRef,
    getCFDictValueRef, CFDictionaryGetValueIfPresent, CFDictionaryGetValue,
    CFGetTypeID, CFStringGetTypeID, make_bytes, start; go.

Lemma max_size_lower_bound (n : N) :
  -1 <= CFStringGetMaximumSizeForEncoding (Z.of_N n).
Proof.
  unfold CFStringGetMaximumSizeForEncoding, kCFNotFound.
  destruct (Z.of_N n >? LONG_MAX / 3); lia.
Qed.

(** C7 (as amended).  The presence check of the lookup reports true
    presence: for every dictionary and key the lookup fails with "Key doesn't
    exist" exactly when the key is absent, and otherwise returns the value
    stored under the key without error. *)
Theorem getCFDictValueRef_checks_presence :
  result (getCFDictValueRef dict key) =
    Done (match dict_find dict key with
          | Some v => (v, None)
          | None => (NULL, Some ErrKeyDoesntExist)
          end).
Proof. run_dict. destruct (dict_find dict key); reflexivity. Qed.

(** C9.  [getCFDictValueUTF8String] fails when the value under the key is
    not a string and when [CFStringGetCString] fails; otherwise the one
    buffer it allocates has exactly
    [CFStringGetMaximumSizeForEncoding (length) + 1] bytes, the allocation
    comes right before the extraction into it, and the result is the buffer
    decoded up to its terminator.  A size above the allocation limit makes
    the allocation panic, and nothing is allocated or extracted. *)
Theorem getCFDictValueUTF8String_conversion :
  let r := result (getCFDictValueUTF8String dict key) in
  let t := trace (getCFDictValueUTF8String dict key) in
  match dict_find dict key with
  | None => r = Done ("", Some ErrKeyDoesntExist)
  | Some NULL => r = Done ("", Some ErrNilValueReturned)
  | Some (Ref h (CFStringObj ns)) =>
      let size := CFStringGetMaximumSizeForEncoding (Z.of_N (ns_length ns)) + 1 in
      if size >? maxAlloc
      then r = Panic "makeslice: len out of range"
           /\ allocations t = []
           /\ Forall (fun c => match c with
                               | C_CFStringGetCString _ _ => False
                               | _ => True
                               end) t
      else
        allocations t = [size]
        /\ if size <? 1 then r = Panic "index out of range"
           else
             (exists pre post,
                t = (pre ++ Go_make_bytes size
                         :: C_CFStringGetCString h size :: post)%list)
             /\ match CFStringGetCString ns size with
                | Some buf => r = Done (GoString buf, None)
                | None => r = Done ("", Some ErrGetCString)
                end
  | Some (Ref _ _) => r = Done ("", Some ErrNotAString) /\ allocations t = []
  end.
Proof.
  run_dict.
  destruct (dict_find dict key) as [[|h [ns| | | | |]]|]; go; auto.
  pose proof (max_size_lower_bound (ns_length ns)) as Hlo.
  set (size := CFStringGetMaximumSizeForEncoding (Z.of_N (ns_length ns)) + 1) in *.
  destruct (Z.ltb_spec size 0); [lia|]. go.
  destruct (size >? maxAlloc); go.
  - repeat split. repeat constructor.
  - destruct (Z.ltb_spec size 1); go.
    + auto.
    + destruct (CFStringGetCString ns size); go;
        (split; [reflexivity | split; [| reflexivity]]).
      * eexists [_; _; _; _; _; _], [_]. reflexivity.
      * eexists [_; _; _; _; _; _], []. reflexivity.
Qed.

End DictFacts.

(** C7 (as stated) fails: on a dictionary without the key, the lookup
    returns the "Key doesn't exist" error. *)
Lemma getCFDictValueRef_absent_key_errors :
  let dict := mkDict 7 [("labl", Ref 8 (CFStringObj (mkNativeString 5 (Some "Other"))))] in
  let key := Ref 1 (CFStringObj (mkNativeString 5 (Some "v_Ref"))) in
  dict_find dict key = None
  /\ result (getCFDictValueRef dict key) = Done (NULL, Some ErrKeyDoesntExist).
Proof. split; reflexivity. Qed.

(** ** Reading one entry *)

Ltac run_entry :=
  unfold entry_label, entry_ref, result, getCFDictValueUTF8String,
    getCFDictValueCFStringRef, getCFDictValueRef, CFDictionaryGetValueIfPresent,
    CFDictionaryGetValue, CFGetTypeID, CFStringGetTypeID, make_bytes, start,
    dict_find; go.

Lemma entry_label_any_state (d : CFDictionaryRef) (h : nat) (st : Native) :
  fst (getCFDictValueUTF8String d (lablKey h) st) = entry_label d.
Proof.
  run_entry.
  destruct (assoc_lookup "labl" (dict_entries d)) as [[|a [ns| | | | |]]|]; go; auto.
  destruct ((_ <? 0) || (_ >? maxAlloc)); go; auto.
  destruct (_ <? 1); go; auto.
  destruct (CFStringGetCString ns _); reflexivity.
Qed.

Lemma entry_ref_any_state (d : CFDictionaryRef) (h : nat) (st : Native) :
  fst (getCFDictValueRef d (vrefKey h) st) = entry_ref d.
Proof.
  run_entry.
  destruct (assoc_lookup "v_Ref" (dict_entries d)); reflexivity.
Qed.

Lemma keeps_getCFDictValueRef d key :
  keeps not_certificate_call (getCFDictValueRef d key).
Proof.
  unfold getCFDictValueRef, CFDictionaryGetValueIfPresent, CFDictionaryGetValue.
  keeps_body.
Qed.

Lemma keeps_getCFDictValueUTF8String d key :
  keeps not_certificate_call (getCFDictValueUTF8String d key).
Proof.
  unfold getCFDictValueUTF8String, getCFDictValueCFStringRef, CFGetTypeID,
    CFStringGetTypeID, make_bytes.
  keeps_with ltac:(apply keeps_getCFDictValueRef).
Qed.

(** ** Substrings *)

Lemma strings_HasPrefix_spec (pre s : string) :
  strings_HasPrefix s pre = true <-> exists post, s = pre ++ post.
Proof.
  revert s. induction pre as [|a pre IH]; intros s; cbn.
  - split; eauto.
  - destruct s as [|b s]; cbn.
    + split; [discriminate | intros [post H]; discriminate].
    + rewrite andb_true_iff, IH. split.
      * intros [Hab [post ->]]. apply Ascii.eqb_eq in Hab. subst. eauto.
      * intros [post H]. injection H as -> ->. split; eauto. apply Ascii.eqb_refl.
Qed.

Lemma strings_Contains_spec (substr s : string) :
  strings_Contains s substr = true <-> exists pre post, s = pre ++ substr ++ post.
Proof.
  induction s as [|c s IH]; cbn.
  - rewrite orb_false_r, strings_HasPrefix_spec. split.
    + intros [post H]. exists "", post. exact H.
    + intros [[|c pre] [post H]]; [eauto | discriminate].
  - rewrite orb_true_iff, strings_HasPrefix_spec, IH. split.
    + intros [[post H] | [pre [post ->]]].
      * exists "", post. exact H.
      * exists (String c pre), post. reflexivity.
    + intros [[|c' pre] [post H]].
      * left. eauto.
      * right. injection H as -> ->. eauto.
Qed.

Lemma filter_none {A} (f : A -> bool) (l : list A) :
  (forall x, In x l -> f x = false) -> filter f l = [].
Proof.
  induction l as [|x l IH]; intros H; cbn; [reflexivity|].
  rewrite (H x) by (left; reflexivity). apply IH. intros y Hy. apply H. right. exact Hy.
Qed.

(** ** The search loop *)

Section FindFacts.

Context {Certificate : Type}.
Variable W : World Certificate.
Variables (identityLabel : string) (isFullLabelMatch : bool).

Ltac step_label d :=
  match goal with
  | |- context [getCFDictValueUTF8String d (Ref ?h ?o) ?st] =>
      let E := fresh "E" in
      let o' := fresh "o" in
      let st' := fresh "st" in
      pose proof (entry_label_any_state d h st) as E;
      change (lablKey h) with (Ref h o) in E;
      destruct (getCFDictValueUTF8String d (Ref h o) st) as [o' st'];
      cbn [fst] in E; subst o'
  end.

Ltac step_ref d :=
  match goal with
  | |- context [getCFDictValueRef d (Ref ?h ?o) ?st] =>
      let E := fresh "E" in
      let o' := fresh "o" in
      let st' := fresh "st" in
      pose proof (entry_ref_any_state d h st) as E;
      change (vrefKey h) with (Ref h o) in E;
      destruct (getCFDictValueRef d (Ref h o) st) as [o' st'];
      cbn [fst] in E; subst o'
  end.

Ltac go_loop :=
  cbn -[Z.ltb Z.eqb Z.gtb Z.leb Z.of_nat Z.of_N Z.add Z.mul Z.div List.length
        getCFDictValueUTF8String getCFDictValueRef].

Lemma loop_readable (arr : nat) (entries : list CFDictionaryRef) :
  forallb (entry_readable isFullLabelMatch identityLabel) entries = true ->
  forall i acc st,
    fst (FindIdentity_loop identityLabel isFullLabelMatch arr entries i acc st) =
      Done (mk_slice (acc ++ map record_of
                             (filter (accepts isFullLabelMatch identityLabel) entries)),
            None).
Proof.
  induction entries as [|d rest IH]; intros Hall i acc st.
  - cbn. rewrite app_nil_r. reflexivity.
  - cbn [forallb] in Hall. apply andb_true_iff in Hall as [Hd Hrest].
    specialize (IH Hrest).
    go_loop. step_label d.
    unfold entry_readable in Hd. unfold accepts, record_of.
    destruct (entry_label d) as [[l [e|]]|m|m] eqn:El; try discriminate.
    assert (Hl : label_of d = l) by (unfold label_of; rewrite El; reflexivity).
    rewrite Hl. go_loop.
    destruct (label_matches isFullLabelMatch identityLabel l); go_loop.
    + step_ref d.
      destruct (entry_ref d) as [[[|a o] [e|]]|m|m] eqn:Er; try discriminate.
      assert (Hr : ref_of d = Ref a o) by (unfold ref_of; rewrite Er; reflexivity).
      go_loop. rewrite IH, Hl, Hr, <- app_assoc. reflexivity.
    + apply IH.
Qed.

Lemma loop_failure (arr : nat) (pre post : list CFDictionaryRef)
    (d : CFDictionaryRef) (e : error) :
  forallb (entry_readable isFullLabelMatch identityLabel) pre = true ->
  entry_failure isFullLabelMatch identityLabel d = Some e ->
  forall i acc st,
    fst (FindIdentity_loop identityLabel isFullLabelMatch arr
                           (pre ++ d :: post) i acc st)
      = Done (nil_slice, Some e).
Proof.
  intros Hpre Hd. induction pre as [|d0 pre IH]; intros i acc st.
  - cbn [app]. go_loop. step_label d.
    unfold entry_failure in Hd.
    destruct (entry_label d) as [[l [e0|]]|m|m]; try discriminate; go_loop.
    + congruence.
    + destruct (label_matches isFullLabelMatch identityLabel l);
        try discriminate. go_loop. step_ref d.
      destruct (entry_ref d) as [[v [e0|]]|m|m]; try discriminate.
      go_loop. congruence.
  - cbn [forallb] in Hpre. apply andb_true_iff in Hpre as [Hd0 Hpre].
    specialize (IH Hpre).
    cbn [app]. go_loop. step_label d0.
    unfold entry_readable in Hd0.
    destruct (entry_label d0) as [[l [e0|]]|m|m]; try discriminate. go_loop.
    destruct (label_matches isFullLabelMatch identityLabel l); go_loop.
    + step_ref d0.
      destruct (entry_ref d0) as [[[|a o] [e0|]]|m|m]; try discriminate.
      go_loop. apply IH.
    + apply IH.
Qed.

Lemma loop_error_nil (arr : nat) (entries : list CFDictionaryRef) :
  forall i acc st s e,
    fst (FindIdentity_loop identityLabel isFullLabelMatch arr entries i acc st)
      = Done (s, Some e) ->
    s = nil_slice.
Proof.
  induction entries as [|d rest IH]; intros i acc st s e.
  - cbn. discriminate.
  - go_loop. step_label d.
    destruct (entry_label d) as [[l [e0|]]|m|m]; go_loop; try discriminate.
    + congruence.
    + destruct (label_matches isFullLabelMatch identityLabel l); go_loop.
      * step_ref d.
        destruct (entry_ref d) as [[[|a o] [e0|]]|m|m]; go_loop;
          try discriminate; try congruence.
        apply IH.
      * apply IH.
Qed.

Lemma keeps_loop (arr : nat) (entries : list CFDictionaryRef) :
  forall i acc,
    keeps not_certificate_call
          (FindIdentity_loop identityLabel isFullLabelMatch arr entries i acc).
Proof.
  induction entries as [|d rest IH]; intros i acc; cbn [FindIdentity_loop].
  - auto with keeps.
  - unfold C_CString_, convertCStringToCFString, CFRetain.
    keeps_with ltac:(first [ apply IH
                           | apply keeps_getCFDictValueUTF8String
                           | apply keeps_getCFDictValueRef ]).
Qed.

Lemma keeps_add_values (h : nat) (q : Query) :
  keeps not_certificate_call (add_values h q).
Proof.
  induction q as [|[k v] q IH]; cbn [add_values];
    keeps_with ltac:(apply IH).
Qed.

Lemma keeps_FindIdentity :
  keeps not_certificate_call (FindIdentity W identityLabel isFullLabelMatch).
Proof.
  unfold FindIdentity.
  keeps_with ltac:(first [ apply keeps_loop | apply keeps_add_values ]).
Qed.

(** With a successful, non-empty search the function returns what the loop
    over the result array returns. *)
Lemma FindIdentity_runs_loop (entries : list CFDictionaryRef) :
  keychain_search W identityQuery = (errSecSuccess, entries) ->
  entries <> [] ->
  exists arr st,
    result (FindIdentity W identityLabel isFullLabelMatch)
      = fst (FindIdentity_loop identityLabel isFullLabelMatch arr entries 0 [] st).
Proof.
  intros Hs Hne. unfold result, FindIdentity. rewrite fst_func.
  cbn -[Z.ltb Z.of_nat List.length FindIdentity_loop].
  rewrite Hs. cbn -[Z.ltb Z.of_nat List.length FindIdentity_loop].
  destruct entries as [|d rest]; [congruence|].
  rewrite of_nat_length_cons_lt1. eauto.
Qed.

Lemma FindIdentity_readable_result (entries : list CFDictionaryRef) :
  keychain_search W identityQuery = (errSecSuccess, entries) ->
  entries <> [] ->
  forallb (entry_readable isFullLabelMatch identityLabel) entries = true ->
  result (FindIdentity W identityLabel isFullLabelMatch) =
    Done (mk_slice (map record_of
                      (filter (accepts isFullLabelMatch identityLabel) entries)),
          None).
Proof.
  intros Hs Hne Hall.
  destruct (FindIdentity_runs_loop entries Hs Hne) as (arr & st & ->).
  rewrite (loop_readable arr entries Hall). reflexivity.
Qed.

End FindFacts.

(** ** Search: the claims *)

Section FindClaims.

Context {Certificate : Type}.
Variable W : World Certificate.
Variables (identityLabel : string) (isFullLabelMatch : bool).

(** C4.  When the search yields no entry, [FindIdentity] returns a nil list
    and an error: "No Identity ... found" if the search itself succeeded,
    the search status otherwise.  It never returns an empty list then. *)
Theorem FindIdentity_no_identity :
  snd (keychain_search W identityQuery) = [] ->
  result (FindIdentity W identityLabel isFullLabelMatch) =
    Done (nil_slice,
          Some (if fst (keychain_search W identityQuery) =? errSecSuccess
                then ErrNoIdentity
                else ErrCopyMatch (fst (keychain_search W identityQuery)))).
Proof.
  intros Hs. unfold result, FindIdentity. rewrite fst_func.
  cbn -[Z.ltb Z.eqb Z.of_nat List.length FindIdentity_loop].
  destruct (keychain_search W identityQuery) as [status entries].
  cbn [fst snd] in *. subst entries.
  destruct (status =? errSecSuccess); reflexivity.
Qed.

(** C5.  With every entry readable, [FindIdentity] returns, in store order,
    exactly the entries whose label the filter accepts: equal to the query
    label under full match, containing it as a substring otherwise; each
    record carries the entry's label and its value reference. *)
Theorem FindIdentity_filters_by_label (entries : list CFDictionaryRef) :
  keychain_search W identityQuery = (errSecSuccess, entries) ->
  entries <> [] ->
  forallb (entry_readable isFullLabelMatch identityLabel) entries = true ->
  result (FindIdentity W identityLabel isFullLabelMatch) =
    Done (mk_slice (map record_of
                      (filter (accepts isFullLabelMatch identityLabel) entries)),
          None)
  /\ (forall d, accepts isFullLabelMatch identityLabel d = true <->
        if isFullLabelMatch then label_of d = identityLabel
        else exists pre post, label_of d = pre ++ identityLabel ++ post)
  /\ Forall (fun r => if isFullLabelMatch then Label r = identityLabel
                      else exists pre post, Label r = pre ++ identityLabel ++ post)
       (map record_of (filter (accepts isFullLabelMatch identityLabel) entries)).
Proof.
  intros Hs Hne Hall.
  assert (Hacc : forall d, accepts isFullLabelMatch identityLabel d = true <->
            if isFullLabelMatch then label_of d = identityLabel
            else exists pre post, label_of d = pre ++ identityLabel ++ post).
  { intros d. unfold accepts, label_matches. destruct isFullLabelMatch.
    - apply String.eqb_eq.
    - apply strings_Contains_spec. }
  split; [| split; [exact Hacc |]].
  - apply FindIdentity_readable_result; assumption.
  - apply Forall_map, Forall_forall. intros d Hd.
    apply filter_In in Hd as [_ Hd]. apply Hacc in Hd. exact Hd.
Qed.

(** C6.  At the first entry whose label or value reference cannot be
    extracted, [FindIdentity] returns that error with a nil list, whatever
    was accepted before; and whenever it returns an error the list is nil. *)
Theorem FindIdentity_all_or_nothing (pre post : list CFDictionaryRef)
    (d : CFDictionaryRef) (e : error) :
  keychain_search W identityQuery = (errSecSuccess, pre ++ d :: post)%list ->
  forallb (entry_readable isFullLabelMatch identityLabel) pre = true ->
  entry_failure isFullLabelMatch identityLabel d = Some e ->
  result (FindIdentity W identityLabel isFullLabelMatch) = Done (nil_slice, Some e)
  /\ forall W' label full s e',
       result (@FindIdentity Certificate W' label full) = Done (s, Some e') ->
       s = nil_slice.
Proof.
  intros Hs Hpre Hd. split.
  - assert (Hne : (pre ++ d :: post)%list <> []) by (destruct pre; discriminate).
    destruct (FindIdentity_runs_loop W identityLabel isFullLabelMatch _ Hs Hne)
      as (arr & st & ->).
    apply loop_failure; assumption.
  - intros W' label full s e'. unfold result, FindIdentity.
    rewrite fst_func.
    cbn -[Z.ltb Z.eqb Z.of_nat List.length FindIdentity_loop].
    destruct (keychain_search W' identityQuery) as [status entries].
    cbn [fst snd].
    destruct (status =? errSecSuccess);
      cbn -[Z.ltb Z.eqb Z.of_nat List.length FindIdentity_loop];
      [| congruence].
    destruct (_ <? 1);
      cbn -[Z.ltb Z.eqb Z.of_nat List.length FindIdentity_loop];
      [congruence |].
    apply loop_error_nil.
Qed.

End FindClaims.

(** ** Validation *)

Section ValidateFacts.

Context {Certificate : Type}.
Variable W : World Certificate.

Ltac go_cert :=
  cbn -[Z.ltb Z.eqb Z.gtb Z.leb Z.of_nat Z.of_N Z.add Z.mul Z.div List.length
        GetCertificateDataFromIdentityRef].

Lemma certificate_any_state (identityRef : CFTypeRef) (st : Native) :
  fst (GetCertificateDataFromIdentityRef W identityRef st)
    = certificate_of W identityRef.
Proof.
  unfold certificate_of, result, GetCertificateDataFromIdentityRef.
  rewrite !fst_func. unfold convertCFDataRefToGoBytes. go.
  destruct (identity_certificate W identityRef) as [status c]. go.
  destruct (status =? errSecSuccess); go; auto.
  destruct c as [|a [ | | | | |[der|]]]; go; auto.
  destruct (C_int (Z.of_nat (List.length der)) <? 0); go; auto.
  destruct (ParseCertificate_ W _); reflexivity.
Qed.

Ltac step_cert a :=
  match goal with
  | |- context [GetCertificateDataFromIdentityRef W (KeychainRef a) ?st] =>
      let E := fresh "E" in
      let o' := fresh "o" in
      let st' := fresh "st" in
      pose proof (certificate_any_state (KeychainRef a) st) as E;
      destruct (GetCertificateDataFromIdentityRef W (KeychainRef a) st) as [o' st'];
      cbn [fst] in E; subst o'
  end.

Lemma validity_loop_all (found : list IdentityWithRefModel) :
  forallb (extracts W) found = true ->
  forall valid st,
    fst (validity_loop W found valid st) =
      Done (mk_slice (valid ++ filter (passes_validity W) found), None).
Proof.
  induction found as [|a rest IH]; intros Hall valid st.
  - cbn. rewrite app_nil_r. reflexivity.
  - cbn [forallb] in Hall. apply andb_true_iff in Hall as [Ha Hrest].
    specialize (IH Hrest). go_cert. step_cert a.
    unfold extracts in Ha. unfold passes_validity at 1.
    destruct (certificate_of W (KeychainRef a)) as [[cert|e]|m|m];
      try discriminate. go_cert.
    destruct (CheckCertificateValidity_ W cert); rewrite IH.
    + reflexivity.
    + rewrite <- app_assoc. reflexivity.
Qed.

Lemma validity_loop_abort (pre post : list IdentityWithRefModel)
    (a : IdentityWithRefModel) (e : error) :
  forallb (extracts W) pre = true ->
  certificate_of W (KeychainRef a) = Done (inr e) ->
  forall valid st,
    fst (validity_loop W (pre ++ a :: post) valid st) =
      Done (mk_slice (valid ++ filter (passes_validity W) pre),
            Some (ErrReadCertificate e)).
Proof.
  intros Hpre Ha. induction pre as [|b pre IH]; intros valid st.
  - cbn [app]. go_cert. step_cert a. rewrite Ha. go_cert.
    rewrite app_nil_r. reflexivity.
  - cbn [forallb] in Hpre. apply andb_true_iff in Hpre as [Hb Hpre].
    specialize (IH Hpre). cbn [app]. go_cert. step_cert b.
    unfold extracts in Hb. unfold passes_validity at 1.
    destruct (certificate_of W (KeychainRef b)) as [[cert|e0]|m|m];
      try discriminate. go_cert.
    destruct (CheckCertificateValidity_ W cert); rewrite IH.
    + reflexivity.
    + rewrite <- app_assoc. reflexivity.
Qed.

Variables (identityLabel : string) (isFullLabelMatch : bool).

(** C3.  After a search that found candidates, [FindAndValidateIdentity]
    walks them in discovery order.  When every certificate extraction
    succeeds it returns exactly the candidates that pass the validity check,
    in that order; at the first extraction failure it returns the valid
    candidates met so far together with the error. *)
Theorem FindAndValidateIdentity_order (found : list IdentityWithRefModel) :
  result (FindIdentity W identityLabel isFullLabelMatch)
    = Done (mk_slice found, None) ->
  found <> [] ->
  (forallb (extracts W) found = true ->
   result (FindAndValidateIdentity W identityLabel isFullLabelMatch)
     = Done (mk_slice (filter (passes_validity W) found), None))
  /\ (forall pre a post e,
        found = (pre ++ a :: post)%list ->
        forallb (extracts W) pre = true ->
        certificate_of W (KeychainRef a) = Done (inr e) ->
        result (FindAndValidateIdentity W identityLabel isFullLabelMatch)
          = Done (mk_slice (filter (passes_validity W) pre),
                  Some (ErrReadCertificate e))).
Proof.
  intros Hfind Hne.
  unfold result, FindAndValidateIdentity in *.
  destruct (FindIdentity W identityLabel isFullLabelMatch start) as [o st] eqn:E.
  cbn [fst] in Hfind. subst o.
  rewrite (bind_done _ _ _ _ _ E). cbn [fst snd elems].
  assert (Hlen : (len (mk_slice found) <? 1) = false).
  { destruct found; [congruence|]. apply of_nat_length_cons_lt1. }
  rewrite Hlen. split.
  - intros Hall. apply (validity_loop_all found Hall []).
  - intros pre a post e -> Hpre Ha.
    apply (validity_loop_abort pre post a e Hpre Ha []).
Qed.

(** C10.  When the search finds entries and the filter rejects every one of
    them, [FindIdentity] returns an empty, non-nil list without error, and
    [FindAndValidateIdentity] returns a nil list without error having made
    no call beyond those of [FindIdentity]: no certificate is extracted,
    parsed or validated. *)
Theorem no_match_returns_nothing (entries : list CFDictionaryRef) :
  keychain_search W identityQuery = (errSecSuccess, entries) ->
  entries <> [] ->
  forallb (rejects isFullLabelMatch identityLabel) entries = true ->
  result (FindIdentity W identityLabel isFullLabelMatch) = Done (mk_slice [], None)
  /\ result (FindAndValidateIdentity W identityLabel isFullLabelMatch)
       = Done (nil_slice, None)
  /\ trace (FindAndValidateIdentity W identityLabel isFullLabelMatch)
       = trace (FindIdentity W identityLabel isFullLabelMatch)
  /\ Forall (fun c => is_certificate_call c = false)
       (trace (FindAndValidateIdentity W identityLabel isFullLabelMatch)).
Proof.
  intros Hs Hne Hrej.
  assert (Hread : forallb (entry_readable isFullLabelMatch identityLabel) entries = true).
  { apply forallb_forall. intros d Hd.
    apply (proj1 (forallb_forall _ _) Hrej) in Hd.
    unfold rejects in Hd. unfold entry_readable.
    destruct (entry_label d) as [[l [e|]]|m|m]; try discriminate.
    apply negb_true_iff in Hd. rewrite Hd. reflexivity. }
  assert (Hnone : filter (accepts isFullLabelMatch identityLabel) entries = []).
  { apply filter_none. intros d Hd.
    apply (proj1 (forallb_forall _ _) Hrej) in Hd.
    unfold rejects in Hd. unfold accepts, label_of.
    destruct (entry_label d) as [[l [e|]]|m|m]; try discriminate.
    apply negb_true_iff in Hd. exact Hd. }
  assert (Hfind : result (FindIdentity W identityLabel isFullLabelMatch)
                  = Done (mk_slice [], None)).
  { rewrite (FindIdentity_readable_result W identityLabel isFullLabelMatch
               entries Hs Hne Hread).
    rewrite Hnone. reflexivity. }
  pose proof (keeps_FindIdentity W identityLabel isFullLabelMatch start) as Hk.
  unfold result, trace, FindAndValidateIdentity in *.
  destruct (FindIdentity W identityLabel isFullLabelMatch start) as [o st] eqn:E.
  cbn [fst] in Hfind. subst o.
  rewrite (bind_done _ _ _ _ _ E). cbn.
  repeat split.
  destruct Hk as [Hk _]; [split; constructor|].
  cbn [snd] in Hk. eapply Forall_impl; [| exact Hk].
  intros c Hc. unfold not_certificate_call in Hc.
  apply negb_true_iff in Hc. exact Hc.
Qed.

End ValidateFacts.

(** ** The claims on the demo keychain *)

Lemma FindAndValidateIdentity_order_witness :
  result (FindAndValidateIdentity Demo.world "iPhone Developer" false)
    = Done (mk_slice [mkIdentity Demo.identityA "iPhone Developer: A"], None)
  /\ result (FindAndValidateIdentity Demo.world_locked "iPhone Developer" false)
    = Done (mk_slice [mkIdentity Demo.identityA "iPhone Developer: A"],
            Some (ErrReadCertificate (ErrCopyMatch (-25308)))).
Proof.
  split.
  - apply (proj1 (FindAndValidateIdentity_order Demo.world "iPhone Developer" false
                    [mkIdentity Demo.identityA "iPhone Developer: A";
                     mkIdentity Demo.identityB "iPhone Developer: B"]
                    eq_refl ltac:(discriminate))).
    reflexivity.
  - apply (proj2 (FindAndValidateIdentity_order Demo.world_locked "iPhone Developer" false
                    [mkIdentity Demo.identityA "iPhone Developer: A";
                     mkIdentity Demo.identityB "iPhone Developer: B"]
                    eq_refl ltac:(discriminate))
             [mkIdentity Demo.identityA "iPhone Developer: A"]
             (mkIdentity Demo.identityB "iPhone Developer: B") []);
      reflexivity.
Defined.

Lemma FindIdentity_no_identity_witness :
  result (FindIdentity Demo.world_empty "iPhone Developer" false)
    = Done (nil_slice, Some ErrNoIdentity).
Proof.
  apply (FindIdentity_no_identity Demo.world_empty "iPhone Developer" false).
  reflexivity.
Defined.

Lemma FindIdentity_filters_by_label_witness :
  result (FindIdentity Demo.world "iPhone Developer" false)
    = Done (mk_slice [mkIdentity Demo.identityA "iPhone Developer: A";
                      mkIdentity Demo.identityB "iPhone Developer: B"], None)
  /\ result (FindIdentity Demo.world "iPhone Developer: A" true)
    = Done (mk_slice [mkIdentity Demo.identityA "iPhone Developer: A"], None).
Proof.
  split.
  - apply (proj1 (FindIdentity_filters_by_label Demo.world "iPhone Developer" false
                    Demo.store eq_refl ltac:(discriminate) eq_refl)).
  - apply (proj1 (FindIdentity_filters_by_label Demo.world "iPhone Developer: A" true
                    Demo.store eq_refl ltac:(discriminate) eq_refl)).
Defined.

Lemma FindIdentity_all_or_nothing_witness :
  result (FindIdentity Demo.world_unlabelled "iPhone Developer" false)
    = Done (nil_slice, Some (ErrLabl ErrKeyDoesntExist)).
Proof.
  apply (proj1 (FindIdentity_all_or_nothing Demo.world_unlabelled
                  "iPhone Developer" false
                  [Demo.entry 100 "iPhone Developer: A"] [Demo.entry 300 "Other"]
                  (Demo.unlabelled 200) (ErrLabl ErrKeyDoesntExist)
                  eq_refl eq_refl eq_refl)).
Defined.

Lemma no_match_returns_nothing_witness :
  result (FindIdentity Demo.world "Mac Developer" false) = Done (mk_slice [], None)
  /\ result (FindAndValidateIdentity Demo.world "Mac Developer" false)
       = Done (nil_slice, None).
Proof.
  pose proof (no_match_returns_nothing Demo.world "Mac Developer" false Demo.store
                eq_refl ltac:(discriminate) eq_refl) as H.
  split; [exact (proj1 H) | exact (proj1 (proj2 H))].
Defined.

Lemma ExportFromKeychain_passphrase_mode_witness :
  Forall (fun p => secure_passphrase_flag_set p = false
                   /\ key_content (passphrase p) = Some "")
    (export_params (trace (ExportFromKeychain Demo.world (mk_slice [Demo.identityA])
                                              "out.p12" false)))
  /\ Forall (fun p => secure_passphrase_flag_set p = true /\ passphrase p = NULL)
    (export_params (trace (ExportFromKeychain Demo.world (mk_slice [Demo.identityA])
                                              "out.p12" true))).
Proof.
  split.
  - exact (proj2 (ExportFromKeychain_passphrase_mode Demo.world
                    (mk_slice [Demo.identityA]) "out.p12" false)).
  - exact (proj2 (ExportFromKeychain_passphrase_mode Demo.world
                    (mk_slice [Demo.identityA]) "out.p12" true)).
Defined.

Lemma getCFDictValueUTF8String_conversion_witness :
  allocations (trace (getCFDictValueUTF8String
                        (Demo.entry 100 "iPhone Developer: A") (lablKey 0))) = [58]
  /\ result (getCFDictValueUTF8String
               (Demo.entry 100 "iPhone Developer: A") (lablKey 0))
     = Done ("iPhone Developer: A", None)
  /\ result (getCFDictValueUTF8String
               (Demo.entry 100 "iPhone Developer: A") (vrefKey 0))
     = Done ("", Some ErrNotAString)
  /\ result (getCFDictValueUTF8String (Demo.unconvertible 100) (lablKey 0))
     = Done ("", Some ErrGetCString).
Proof.
  pose proof (getCFDictValueUTF8String_conversion
                (Demo.entry 100 "iPhone Developer: A") (lablKey 0)) as Hl.
  pose proof (getCFDictValueUTF8String_conversion
                (Demo.entry 100 "iPhone Developer: A") (vrefKey 0)) as Hv.
  pose proof (getCFDictValueUTF8String_conversion
                (Demo.unconvertible 100) (lablKey 0)) as Hu.
  exact (conj (proj1 Hl)
          (conj (proj2 (proj2 Hl))
             (conj (proj1 Hv) (proj2 (proj2 Hu))))).
Defined.

(** * Further properties of the package *)

(** ** Export: outcome, arguments, releases *)

Section ExportMore.

Context {Certificate : Type}.
Variable W : World Certificate.

Ltac run_export' :=
  unfold trace, result, ExportFromKeychain, start; go.

Ltac split_export :=
  match goal with
  | |- context [keychain_export ?W ?items ?f ?a ?p] =>
      destruct (keychain_export W items f a p) as [status bytes]; go;
      destruct (Z.eqb_spec status errSecSuccess); go
  end;
  try match goal with
  | |- context [C_int ?z <? 0] => destruct (C_int z <? 0); go
  end;
  try match goal with
  | |- context [firstn ?n ?l] =>
      destruct (firstn n l) as [|b bs]; go;
      rewrite ?of_nat_length_cons_lt1; go
  end;
  try match goal with
  | |- context [WriteBytesToFile_ ?W ?p ?d] =>
      destruct (WriteBytesToFile_ W p d); go
  end.

(** What an export of at least one identity returns, and what it writes.
    A failing export gives the native status as an error.  Otherwise the
    exported data is read with its length narrowed to [C.int]: below 2^31
    bytes that is all of it; a negative narrowed length panics; else the
    bytes read are the prefix of that length.  No bytes read is an error; the
    writer's error is returned when writing fails, nil otherwise.  The file
    writer is called only when bytes were read, once, with the given path
    and exactly those bytes. *)
Theorem ExportFromKeychain_outcome (x : CFTypeRef) (xs : list CFTypeRef)
    (outputFilePath : string) (isAskForPassword : bool) :
  let run := ExportFromKeychain W (mk_slice (x :: xs)) outputFilePath
                                isAskForPassword in
  exists p,
    export_params (trace run) = [p]
    /\ let status := fst (keychain_export W (x :: xs) kSecFormatPKCS12 0 p) in
       let exported := snd (keychain_export W (x :: xs) kSecFormatPKCS12 0 p) in
       let n := C_int (Z.of_nat (List.length exported)) in
       let dataBytes := firstn (Z.to_nat n) exported in
       (Z.of_nat (List.length exported) < 2 ^ 31 ->
        (n <? 0) = false /\ dataBytes = exported)
       /\ if negb (status =? errSecSuccess)
          then result run = Done (Some (ErrSecItemExport status))
               /\ file_writes (trace run) = []
          else if n <? 0
          then (exists msg, result run = Panic msg)
               /\ file_writes (trace run) = []
          else result run =
                 Done (match dataBytes with
                       | [] => Some ErrExportEmpty
                       | _ :: _ =>
                           match WriteBytesToFile_ W outputFilePath dataBytes with
                           | Some err => Some (ErrWriteFile err)
                           | None => None
                           end
                       end)
               /\ file_writes (trace run) =
                    match dataBytes with
                    | [] => []
                    | _ :: _ => [(outputFilePath, dataBytes)]
                    end.
Proof.
  destruct isAskForPassword; run_export';
    (eexists; split; [ split_export; reflexivity | ]);
    cbv zeta; (split; [ apply narrowed_copy_whole | ]);
    split_export; split; eauto.
Qed.

(** The arguments of the export: the array is created from exactly the
    identities given, in order, and that array is exported as PKCS#12 with
    item flags 0 (no PEM armour); the parameter block has version 0 and nil
    title, key usage and key attributes; the prompt text is attached only
    when the passphrase is asked for. *)
Theorem ExportFromKeychain_arguments (x : CFTypeRef) (xs : list CFTypeRef)
    (outputFilePath : string) (isAskForPassword : bool) :
  let t := trace (ExportFromKeychain W (mk_slice (x :: xs)) outputFilePath
                                     isAskForPassword) in
  exists arr,
    array_creates t = [(x :: xs, arr)]
    /\ export_calls t = [(arr, kSecFormatPKCS12, 0)]
    /\ Forall (fun p =>
         version p = SEC_KEY_IMPORT_EXPORT_PARAMS_VERSION
         /\ alertTitle p = NULL /\ keyUsage p = NULL /\ keyAttributes p = NULL
         /\ if isAskForPassword
            then key_content (alertPrompt p) = Some promptString
            else alertPrompt p = NULL) (export_params t).
Proof.
  destruct isAskForPassword; run_export'; split_export;
    (eexists; split; [reflexivity | split; [reflexivity |]]);
    repeat constructor.
Qed.

(** Releases of an export, on every exit path and for every input, the
    empty one included: they all happen at function exit; the exported data
    handle, when there is one, is released once and first; then every C
    string is freed once, in reverse order of allocation.  The released data
    handle is the one whose bytes were read. *)
Theorem ExportFromKeychain_release_order (itemRefsToExport : slice CFTypeRef)
    (outputFilePath : string) (isAskForPassword : bool) :
  let t := trace (ExportFromKeychain W itemRefsToExport outputFilePath
                                     isAskForPassword) in
  t = (filter (fun c => negb (releases c)) t
       ++ map C_CFRelease (released_refs t) ++ map C_free (frees t))%list
  /\ frees t = rev (mallocs t)
  /\ released_refs t = data_reads t
  /\ (List.length (released_refs t) <= 1)%nat.
Proof.
  destruct itemRefsToExport as [|[|x xs]].
  1, 2: destruct isAskForPassword; cbn; repeat split; auto.
  destruct isAskForPassword; run_export'; split_export;
    cbn; repeat split; auto.
Qed.

End ExportMore.

(** ** Certificate extraction *)

Section CertificateMore.

Context {Certificate : Type}.
Variable W : World Certificate.
Variable identityRef : CFTypeRef.

Ltac run_cert :=
  unfold trace, result, GetCertificateDataFromIdentityRef,
    convertCFDataRefToGoBytes, start; go.

(** The outcome of the certificate extraction.  A failing
    [SecIdentityCopyCertificate] gives an error carrying its status, and
    nothing else is called.  Otherwise nil data gives an error, and the
    certificate data is read with its length narrowed to [C.int]: below 2^31
    bytes that is all of it, the empty sequence included; a negative
    narrowed length panics; else the bytes read are the prefix of that
    length.  The bytes read go to the parser, whose verdict is returned. *)
Theorem GetCertificateDataFromIdentityRef_outcome :
  let status := fst (identity_certificate W identityRef) in
  let run := GetCertificateDataFromIdentityRef W identityRef in
  if negb (status =? errSecSuccess)
  then result run = Done (inr (ErrCopyMatch status))
       /\ trace run = [C_SecIdentityCopyCertificate identityRef status]
  else match snd (identity_certificate W identityRef) with
       | Ref c (SecCertificateObj None) =>
           result run = Done (inr ErrCopyData)
           /\ trace run = [C_SecIdentityCopyCertificate identityRef status;
                           C_SecCertificateCopyData c None]
       | Ref c (SecCertificateObj (Some der)) =>
           let n := C_int (Z.of_nat (List.length der)) in
           let certData := firstn (Z.to_nat n) der in
           (Z.of_nat (List.length der) < 2 ^ 31 ->
            (n <? 0) = false /\ certData = der)
           /\ if n <? 0
              then exists msg, result run = Panic msg
              else result run = Done (match ParseCertificate_ W certData with
                                      | inl cert => inl cert
                                      | inr e => inr (ErrParse e)
                                      end)
       | _ => result run = Crash "SecCertificateCopyData: not a certificate"
       end.
Proof.
  run_cert. destruct (identity_certificate W identityRef) as [status c]. go.
  destruct (status =? errSecSuccess); go; auto.
  destruct c as [|a [ | | | | |[der|]]]; go; auto.
  split; [apply narrowed_copy_whole |].
  destruct (C_int (Z.of_nat (List.length der)) <? 0); go; eauto.
  destruct (ParseCertificate_ W _); reflexivity.
Qed.

(** What the extraction acquires and releases when the keychain hands back
    a certificate object (or fails): the copied data handle is released
    exactly once, after its bytes were read, whether or not parsing
    succeeds; the certificate reference itself is not released, so a
    successful copy leaves one acquisition more than releases. *)
Theorem GetCertificateDataFromIdentityRef_balance :
  let status := fst (identity_certificate W identityRef) in
  let t := trace (GetCertificateDataFromIdentityRef W identityRef) in
  (status =? errSecSuccess) = false
  \/ is_certificate_ref (snd (identity_certificate W identityRef)) = true ->
  acquired t = (released t + (if (status =? errSecSuccess)%Z then 1 else 0))%nat
  /\ released_refs t = data_reads t
  /\ frees t = [].
Proof.
  run_cert. destruct (identity_certificate W identityRef) as [status c]. go.
  intros H.
  destruct (status =? errSecSuccess) eqn:Es; go.
  - destruct H as [H|H]; [discriminate|].
    destruct c as [|a [ | | | | |[der|]]]; try discriminate; go.
    + destruct (C_int (Z.of_nat (List.length der)) <? 0); go;
        [| destruct (ParseCertificate_ W _); go];
        unfold acquired, released; cbn; rewrite Es; auto.
    + unfold acquired, released; cbn; rewrite Es; auto.
  - unfold acquired, released; cbn; rewrite Es; auto.
Qed.

End CertificateMore.

(** ** Releasing lists of references *)

Lemma ReleaseRefList_run (refItems : list CFTypeRef) :
  forallb non_null refItems = true ->
  forall st,
    ReleaseRefList refItems st =
      (Done tt, mkNative (calls st ++ map C_CFRelease (ref_addrs refItems))
                         (next st) (deferred st)).
Proof.
  induction refItems as [|[|a o] rest IH]; intros Hnn st.
  - cbn. rewrite app_nil_r. destruct st; reflexivity.
  - discriminate.
  - cbn [forallb non_null andb] in Hnn. go. rewrite (IH Hnn). cbn.
    rewrite <- app_assoc. reflexivity.
Qed.

Lemma ReleaseRefList_crash (pre post : list CFTypeRef) :
  forallb non_null pre = true ->
  forall st,
    ReleaseRefList (pre ++ NULL :: post) st =
      (Crash "CFRelease: NULL",
       mkNative (calls st ++ map C_CFRelease (ref_addrs pre))
                (next st) (deferred st)).
Proof.
  induction pre as [|[|a o] rest IH]; intros Hnn st.
  - cbn. rewrite app_nil_r. destruct st; reflexivity.
  - discriminate.
  - cbn [forallb non_null andb] in Hnn. cbn [app]. go. rewrite (IH Hnn). cbn.
    rewrite <- app_assoc. reflexivity.
Qed.

Lemma ReleaseIdentityWithRefList_as_refs (refItems : list IdentityWithRefModel) :
  forall st,
    ReleaseIdentityWithRefList refItems st
      = ReleaseRefList (map KeychainRef refItems) st.
Proof.
  induction refItems as [|itm rest IH]; intros st; [reflexivity|].
  cbn [ReleaseIdentityWithRefList ReleaseRefList map]. unfold bind.
  destruct (ReleaseRef (KeychainRef itm) st) as [[[]|m|m] st']; auto.
Qed.

(** Releasing a list without nil references: [ReleaseRefList] and
    [ReleaseIdentityWithRefList] pass each reference to [CFRelease] exactly
    once, in list order, and call nothing else; the second does on the
    records what the first does on their references. *)
Theorem ReleaseRefList_releases_each_once (refItems : list IdentityWithRefModel) :
  forallb non_null (map KeychainRef refItems) = true ->
  result (ReleaseIdentityWithRefList refItems) = Done tt
  /\ trace (ReleaseIdentityWithRefList refItems)
       = map C_CFRelease (ref_addrs (map KeychainRef refItems))
  /\ result (ReleaseRefList (map KeychainRef refItems)) = Done tt
  /\ trace (ReleaseRefList (map KeychainRef refItems))
       = map C_CFRelease (ref_addrs (map KeychainRef refItems)).
Proof.
  intros Hnn. unfold result, trace.
  rewrite ReleaseIdentityWithRefList_as_refs, (ReleaseRefList_run _ Hnn).
  cbn. auto.
Qed.

(** A nil reference in the list stops the release: the references before it
    have been released, the ones after it are not. *)
Theorem ReleaseRefList_stops_at_nil (pre post : list CFTypeRef) :
  forallb non_null pre = true ->
  result (ReleaseRefList (pre ++ NULL :: post)) = Crash "CFRelease: NULL"
  /\ trace (ReleaseRefList (pre ++ NULL :: post))
       = map C_CFRelease (ref_addrs pre).
Proof.
  intros Hnn. unfold result, trace. rewrite (ReleaseRefList_crash _ _ Hnn).
  cbn. auto.
Qed.

(** ** Strings out of dictionaries *)

Lemma GoString_app_NUL (s rest : string) :
  GoString (s ++ String NUL rest) = GoString s.
Proof.
  induction s as [|c s IH]; cbn; [reflexivity|].
  destruct (Ascii.eqb c "000"); [reflexivity | rewrite IH; reflexivity].
Qed.

Lemma GoString_no_NUL (s : string) : has_NUL (GoString s) = false.
Proof.
  induction s as [|c s IH]; cbn; [reflexivity|].
  destruct (Ascii.eqb c "000") eqn:E; cbn; [reflexivity|].
  unfold NUL. rewrite E. exact IH.
Qed.

Lemma GoString_prefix (s : string) : exists rest, s = GoString s ++ rest.
Proof.
  induction s as [|c s [rest IH]]; cbn.
  - exists "". reflexivity.
  - destruct (Ascii.eqb c "000").
    + exists (String c s). reflexivity.
    + exists rest. cbn. rewrite <- IH. reflexivity.
Qed.

Lemma GoString_id (s : string) : has_NUL s = false -> GoString s = s.
Proof.
  induction s as [|c s IH]; cbn; [reflexivity|].
  unfold NUL. intros H. apply orb_false_iff in H as [Hc Hs].
  rewrite Hc, (IH Hs). reflexivity.
Qed.

Section StringMore.

Variables (dict : CFDictionaryRef) (key : CFTypeRef).

Ltac run_lookup :=
  unfold trace, result, getCFDictValueUTF8String, getCFDictValueCFStringRef,
    getCFDictValueRef, CFDictionaryGetValueIfPresent, CFDictionaryGetValue,
    CFGetTypeID, CFStringGetTypeID, make_bytes, start; go.

(** Reading a string back.  When the value under the key is a native string
    whose UTF-8 form fits the worst-case size (three bytes per code unit),
    and that size plus the terminator is within the allocation limit, the
    function returns that form up to its first NUL byte: unchanged when it
    has none, cut there otherwise. *)
Theorem getCFDictValueUTF8String_round_trip (h : nat) (ns : NativeString)
    (s : string) :
  dict_find dict key = Some (Ref h (CFStringObj ns)) ->
  ns_cstring ns = Some s ->
  3 * Z.of_N (ns_length ns) + 1 <= maxAlloc ->
  Z.of_nat (String.length s) <= 3 * Z.of_N (ns_length ns) ->
  result (getCFDictValueUTF8String dict key) = Done (GoString s, None)
  /\ (has_NUL s = false -> GoString s = s)
  /\ has_NUL (GoString s) = false
  /\ exists rest, s = GoString s ++ rest.
Proof.
  intros Hfind Hs Hlen Hfit.
  split; [| split; [apply GoString_id | split;
                    [apply GoString_no_NUL | apply GoString_prefix]]].
  run_lookup. rewrite Hfind. go.
  unfold CFStringGetMaximumSizeForEncoding, CFStringGetCString.
  assert (Hmax : maxAlloc = 281474976710656) by reflexivity.
  change (LONG_MAX / 3) with 3074457345618258602.
  destruct (Z.gtb_spec (Z.of_N (ns_length ns)) 3074457345618258602); [lia|].
  destruct (Z.ltb_spec (Z.of_N (ns_length ns) * 3 + 1) 0); [lia|].
  destruct (Z.gtb_spec (Z.of_N (ns_length ns) * 3 + 1) maxAlloc); [lia|]. go.
  destruct (Z.ltb_spec (Z.of_N (ns_length ns) * 3 + 1) 1); [lia|]. go.
  rewrite Hs.
  destruct (Z.leb_spec (Z.of_nat (String.length s) + 1)
                       (Z.of_N (ns_length ns) * 3 + 1)); [| lia].
  go. pose proof (GoString_app_NUL s "") as E. unfold NUL in E.
  rewrite E. reflexivity.
Qed.

(** [getCFDictValueCFStringRef] always returns; what it returns without
    error is the value stored under the key, and that value is a string. *)
Theorem getCFDictValueCFStringRef_returns_string :
  exists r, result (getCFDictValueCFStringRef dict key) = Done r
    /\ (snd r = None ->
        dict_find dict key = Some (fst r)
        /\ exists h ns, fst r = Ref h (CFStringObj ns))
    /\ (snd r <> None -> fst r = NULL).
Proof.
  run_lookup.
  destruct (dict_find dict key) as [[|h [ns| | | | |]]|]; go;
    (eexists; split; [reflexivity |]); cbn;
    (split; [intros H; try discriminate | intros H; try congruence]).
  split; eauto.
Qed.

End StringMore.

(** ** The search: what it allocates, retains and releases *)

Lemma lookup_only_getCFDictValueRef d key :
  keeps is_lookup_call (getCFDictValueRef d key).
Proof.
  unfold getCFDictValueRef, CFDictionaryGetValueIfPresent, CFDictionaryGetValue.
  keeps_body.
Qed.

Lemma lookup_only_getCFDictValueUTF8String d key :
  keeps is_lookup_call (getCFDictValueUTF8String d key).
Proof.
  unfold getCFDictValueUTF8String, getCFDictValueCFStringRef, CFGetTypeID,
    CFStringGetTypeID, make_bytes.
  keeps_with ltac:(apply lookup_only_getCFDictValueRef).
Qed.

Lemma keeps_trace {A} (P : Call -> bool) (m : M A) :
  keeps P m -> Forall (fun c => P c = true) (trace m).
Proof.
  intros H. destruct (H start) as [Hc _]; [split; constructor | exact Hc].
Qed.

(** A projection that ignores look-up calls sees nothing in a log of
    look-up calls. *)
Lemma flat_map_lookups {X} (pick : Call -> list X) (t : list Call) :
  (forall c, is_lookup_call c = true -> pick c = []) ->
  Forall (fun c => is_lookup_call c = true) t ->
  flat_map pick t = [].
Proof.
  intros Hp Ht. induction Ht as [|c t Hc _ IH]; cbn; [reflexivity|].
  rewrite (Hp c Hc), IH. reflexivity.
Qed.

Lemma reads_getCFDictValueRef d key : reads (getCFDictValueRef d key).
Proof.
  intros st.
  unfold result, trace, getCFDictValueRef, CFDictionaryGetValueIfPresent,
    CFDictionaryGetValue, start. go.
  destruct (dict_find d key); go; rewrite <- ?app_assoc; reflexivity.
Qed.

Lemma reads_getCFDictValueUTF8String d key :
  reads (getCFDictValueUTF8String d key).
Proof.
  intros st.
  unfold result, trace, getCFDictValueUTF8String, getCFDictValueCFStringRef,
    getCFDictValueRef, CFDictionaryGetValueIfPresent, CFDictionaryGetValue,
    CFGetTypeID, CFStringGetTypeID, make_bytes, start. go.
  destruct (dict_find d key) as [[|a [ns| | | | |]]|]; go;
    rewrite <- ?app_assoc; try reflexivity.
  destruct ((_ <? 0) || (_ >? maxAlloc)); go; rewrite <- ?app_assoc;
    try reflexivity.
  destruct (_ <? 1); go; rewrite <- ?app_assoc; try reflexivity.
  destruct (CFStringGetCString ns _); go; rewrite <- ?app_assoc; reflexivity.
Qed.

Lemma label_step d h st :
  getCFDictValueUTF8String d (lablKey h) st =
    (entry_label d,
     mkNative (calls st ++ trace (getCFDictValueUTF8String d (lablKey h)))
              (next st) (deferred st)).
Proof.
  rewrite (reads_getCFDictValueUTF8String d (lablKey h) st).
  f_equal. exact (entry_label_any_state d h start).
Qed.

Lemma vref_step d h st :
  getCFDictValueRef d (vrefKey h) st =
    (entry_ref d,
     mkNative (calls st ++ trace (getCFDictValueRef d (vrefKey h)))
              (next st) (deferred st)).
Proof.
  rewrite (reads_getCFDictValueRef d (vrefKey h) st).
  f_equal. exact (entry_ref_any_state d h start).
Qed.

Lemma quiet_label {X} (pick : Call -> list X) d key :
  (forall c, is_lookup_call c = true -> pick c = []) ->
  flat_map pick (trace (getCFDictValueUTF8String d key)) = [].
Proof.
  intros Hp. apply flat_map_lookups; [exact Hp |].
  apply keeps_trace, lookup_only_getCFDictValueUTF8String.
Qed.

Lemma quiet_vref {X} (pick : Call -> list X) d key :
  (forall c, is_lookup_call c = true -> pick c = []) ->
  flat_map pick (trace (getCFDictValueRef d key)) = [].
Proof.
  intros Hp. apply flat_map_lookups; [exact Hp |].
  apply keeps_trace, lookup_only_getCFDictValueRef.
Qed.

Ltac not_a_lookup := intros [] H; try discriminate H; reflexivity.

Ltac project :=
  cbn [calls];
  unfold mallocs, frees, released_refs, searches, retained, array_counts,
    dict_creates;
  rewrite ?flat_map_app;
  rewrite ?quiet_label by not_a_lookup;
  rewrite ?quiet_vref by not_a_lookup;
  cbn [flat_map app].

Lemma loop_frame_refl st : loop_frame st st.
Proof. exists []. cbn. rewrite app_nil_r. repeat split; auto. Qed.

Lemma loop_frame_trans st1 st2 st3 :
  loop_frame st1 st2 -> loop_frame st2 st3 -> loop_frame st1 st3.
Proof.
  intros (ms1 & M1 & D1 & F1 & R1 & S1 & A1 & C1)
         (ms2 & M2 & D2 & F2 & R2 & S2 & A2 & C2).
  exists (ms1 ++ ms2)%list. repeat split; try congruence.
  - rewrite M2, M1, app_assoc. reflexivity.
  - rewrite D2, D1, rev_app_distr, map_app, app_assoc. reflexivity.
Qed.

Lemma loop_frame_intro st st' extra :
  calls st' = (calls st ++ extra)%list ->
  frees extra = [] -> released_refs extra = [] -> searches extra = [] ->
  array_counts extra = [] -> dict_creates extra = [] ->
  deferred st' = (map C_free (rev (mallocs extra)) ++ deferred st)%list ->
  loop_frame st st'.
Proof.
  intros Hc Hf Hr Hs Ha Hq Hd. exists (mallocs extra). rewrite Hc.
  unfold mallocs, frees, released_refs, searches, array_counts, dict_creates in *.
  rewrite !flat_map_app, Hf, Hr, Hs, Ha, Hq, !app_nil_r. repeat split; auto.
Qed.

Section SearchMore.

Variables (identityLabel : string) (isFullLabelMatch : bool) (arr : nat).

Ltac go_iter :=
  cbn -[Z.ltb Z.eqb Z.gtb Z.leb Z.of_nat Z.of_N Z.add Z.mul Z.div List.length
        getCFDictValueUTF8String getCFDictValueRef].

Ltac run_label d :=
  match goal with
  | |- context [getCFDictValueUTF8String d (Ref ?h ?o) ?s] =>
      change (Ref h o) with (lablKey h); rewrite (label_step d h s)
  end.

Ltac run_vref d :=
  match goal with
  | |- context [getCFDictValueRef d (Ref ?h ?o) ?s] =>
      change (Ref h o) with (vrefKey h); rewrite (vref_step d h s)
  end.

Ltac frame_now :=
  eapply loop_frame_intro;
  [ cbn [calls]; rewrite <- ?app_assoc; reflexivity
  | project; reflexivity
  | project; reflexivity
  | project; reflexivity
  | project; reflexivity
  | project; reflexivity
  | project; reflexivity ].

Lemma loop_frames (entries : list CFDictionaryRef) :
  forall i acc st,
    loop_frame st
      (snd (FindIdentity_loop identityLabel isFullLabelMatch arr entries i acc st)).
Proof.
  induction entries as [|d rest IH]; intros i acc st.
  - apply loop_frame_refl.
  - go_iter. run_label d.
    destruct (entry_label d) as [[l [e|]]|m|m]; go_iter; try frame_now.
    destruct (label_matches isFullLabelMatch identityLabel l); go_iter.
    + run_vref d.
      destruct (entry_ref d) as [[[|a o] [e|]]|m|m]; go_iter; try frame_now.
      eapply loop_frame_trans; [| apply IH]. frame_now.
    + eapply loop_frame_trans; [| apply IH]. frame_now.
Qed.

Lemma loop_retains (entries : list CFDictionaryRef) :
  forall i acc st,
    exists rs,
      retained (calls (snd (FindIdentity_loop identityLabel isFullLabelMatch
                                              arr entries i acc st)))
        = (retained (calls st) ++ ref_addrs (map KeychainRef rs))%list
      /\ forallb non_null (map KeychainRef rs) = true
      /\ forall s,
           fst (FindIdentity_loop identityLabel isFullLabelMatch
                                  arr entries i acc st) = Done (s, None) ->
           s = mk_slice (acc ++ rs).
Proof.
  induction entries as [|d rest IH]; intros i acc st.
  - exists []. cbn. rewrite !app_nil_r. repeat split; auto. congruence.
  - go_iter. run_label d.
    destruct (entry_label d) as [[l [e|]]|m|m]; go_iter;
      try (exists []; project; rewrite ?app_nil_r;
           repeat split; auto; discriminate).
    destruct (label_matches isFullLabelMatch identityLabel l); go_iter.
    + run_vref d.
      destruct (entry_ref d) as [[[|a o] [e|]]|m|m]; go_iter;
        try (exists []; project; rewrite ?app_nil_r;
             repeat split; auto; discriminate).
      match goal with
      | |- context [FindIdentity_loop _ _ _ rest ?i' ?acc' ?st'] =>
          destruct (IH i' acc' st') as (rs & Hr & Hn & Hl)
      end.
      exists (mkIdentity (Ref a o) l :: rs).
      split; [| split; [exact Hn |]].
      * rewrite Hr. project. rewrite ?app_nil_r, <- ?app_assoc. reflexivity.
      * intros l0 H0. rewrite (Hl l0 H0), <- app_assoc. reflexivity.
    + match goal with
      | |- context [FindIdentity_loop _ _ _ rest ?i' ?acc' ?st'] =>
          destruct (IH i' acc' st') as (rs & Hr & Hn & Hl)
      end.
      exists rs. split; [| split; [exact Hn | exact Hl]].
      rewrite Hr. project. rewrite ?app_nil_r. reflexivity.
Qed.

End SearchMore.

Lemma flat_map_nothing {X Y} (l : list X) :
  flat_map (fun _ : X => @nil Y) l = [].
Proof. induction l; cbn; auto. Qed.

Lemma flat_map_each {X} (l : list X) : flat_map (fun x => [x]) l = l.
Proof. induction l; cbn; congruence. Qed.

Lemma released_refs_releases (l : list nat) :
  released_refs (map C_CFRelease l) = l.
Proof. unfold released_refs. rewrite flat_map_concat_map, map_map,
  <- flat_map_concat_map. apply flat_map_each. Qed.

(** What the deferred calls of the search contribute to each projection. *)
Lemma deferred_projections (ms : list nat) (rel : list Call) :
  mallocs (map C_free ms ++ rel) = mallocs rel
  /\ frees (map C_free ms ++ rel) = (ms ++ frees rel)%list
  /\ released_refs (map C_free ms ++ rel) = released_refs rel
  /\ searches (map C_free ms ++ rel) = searches rel
  /\ retained (map C_free ms ++ rel) = retained rel
  /\ array_counts (map C_free ms ++ rel) = array_counts rel
  /\ dict_creates (map C_free ms ++ rel) = dict_creates rel.
Proof.
  unfold mallocs, frees, released_refs, searches, retained, array_counts,
    dict_creates.
  rewrite !flat_map_app, !flat_map_concat_map, !map_map,
    <- !flat_map_concat_map.
  rewrite !flat_map_nothing, flat_map_each. repeat split; reflexivity.
Qed.

Lemma loop_frame_search_done (st' : Native) :
  loop_frame search_done st' ->
  exists ms,
    mallocs (calls st') = ms
    /\ deferred st' = (map C_free (rev ms) ++ [C_CFRelease 1; C_CFRelease 0])%list
    /\ frees (calls st') = []
    /\ released_refs (calls st') = []
    /\ searches (calls st') = [(identityQuery, errSecSuccess)]
    /\ array_counts (calls st') = [1%nat]
    /\ dict_creates (calls st') = [0%nat].
Proof.
  intros (ms & M & D & F & R & S & A & Q). exists ms.
  cbn in M, D, F, R, S, A, Q. auto 10.
Qed.

Lemma projections_app (a b : list Call) :
  mallocs (a ++ b) = (mallocs a ++ mallocs b)%list
  /\ frees (a ++ b) = (frees a ++ frees b)%list
  /\ released_refs (a ++ b) = (released_refs a ++ released_refs b)%list
  /\ searches (a ++ b) = (searches a ++ searches b)%list
  /\ retained (a ++ b) = (retained a ++ retained b)%list
  /\ array_counts (a ++ b) = (array_counts a ++ array_counts b)%list
  /\ dict_creates (a ++ b) = (dict_creates a ++ dict_creates b)%list.
Proof. repeat split; apply flat_map_app. Qed.

Section SearchClaimsMore.

Context {Certificate : Type}.
Variable W : World Certificate.
Variables (identityLabel : string) (isFullLabelMatch : bool).

Lemma FindIdentity_enters_loop (entries : list CFDictionaryRef) :
  keychain_search W identityQuery = (errSecSuccess, entries) ->
  entries <> [] ->
  FindIdentity W identityLabel isFullLabelMatch start =
    match FindIdentity_loop identityLabel isFullLabelMatch 1 entries 0 []
                            search_done with
    | (Crash msg, st') => (Crash msg, mkNative (calls st') (next st') [])
    | (r, st') => (r, mkNative (calls st' ++ deferred st') (next st') [])
    end.
Proof.
  intros Hs Hne. unfold FindIdentity, start.
  cbn -[Z.ltb Z.of_nat List.length FindIdentity_loop].
  rewrite Hs. cbn -[Z.ltb Z.of_nat List.length FindIdentity_loop].
  destruct entries as [|d rest]; [congruence|].
  rewrite of_nat_length_cons_lt1. reflexivity.
Qed.

(** A failing search: [FindIdentity] returns a nil list with the status as
    error; it has built the query, searched once and released the query
    dictionary, and has not touched any result. *)
Theorem FindIdentity_search_failure :
  (fst (keychain_search W identityQuery) =? errSecSuccess) = false ->
  result (FindIdentity W identityLabel isFullLabelMatch)
    = Done (nil_slice, Some (ErrCopyMatch (fst (keychain_search W identityQuery))))
  /\ trace (FindIdentity W identityLabel isFullLabelMatch)
    = [C_CFDictionaryCreateMutable 0;
       C_CFDictionaryAddValue 0 kSecClass kSecClassIdentity;
       C_CFDictionaryAddValue 0 kSecMatchLimit kSecMatchLimitAll;
       C_CFDictionaryAddValue 0 kSecReturnAttributes kCFBooleanTrue;
       C_CFDictionaryAddValue 0 kSecReturnRef kCFBooleanTrue;
       C_SecItemCopyMatching identityQuery (fst (keychain_search W identityQuery));
       C_CFRelease 0].
Proof.
  intros Hs. unfold result, trace, FindIdentity, start.
  cbn -[Z.ltb Z.eqb Z.of_nat List.length FindIdentity_loop].
  rewrite Hs. cbn. auto.
Qed.

(** Allocation and release discipline of the search, on every path that
    does not fault inside C: exactly one search is made, with the identity
    query; every C string allocated is freed exactly once, in reverse order
    of allocation; and the only objects released are the result array (when
    the search succeeded) and then the query dictionary. *)
Theorem FindIdentity_releases :
  crashed (result (FindIdentity W identityLabel isFullLabelMatch)) = false ->
  let t := trace (FindIdentity W identityLabel isFullLabelMatch) in
  searches t = [(identityQuery, fst (keychain_search W identityQuery))]
  /\ frees t = rev (mallocs t)
  /\ released_refs t = (array_counts t ++ dict_creates t)%list
  /\ List.length (dict_creates t) = 1%nat.
Proof.
  intros Hc.
  destruct (keychain_search W identityQuery) as [status entries] eqn:Hs.
  cbn [fst].
  destruct (Z.eqb_spec status errSecSuccess) as [->|Hne].
  - destruct entries as [|d rest].
    + unfold trace, FindIdentity, start.
      cbn -[Z.ltb Z.eqb Z.of_nat List.length FindIdentity_loop].
      rewrite Hs. cbn. auto.
    + unfold result, trace in *.
      rewrite (FindIdentity_enters_loop (d :: rest) Hs) in * by discriminate.
      pose proof (loop_frames identityLabel isFullLabelMatch 1 (d :: rest)
                    0 [] search_done) as Hf.
      destruct (FindIdentity_loop _ _ _ _ _ _ _) as [[r|m|m] st'];
        try discriminate; cbn [fst snd calls] in *;
        destruct (loop_frame_search_done st' Hf)
          as (ms & M & D & F & R & S & A & Q);
        rewrite D;
        destruct (deferred_projections (rev ms) [C_CFRelease 1; C_CFRelease 0])
          as (PM & PF & PR & PS & _ & PA & PQ);
        destruct (projections_app (calls st')
                    (map C_free (rev ms) ++ [C_CFRelease 1; C_CFRelease 0]))
          as (AM & AF & AR & AS & _ & AA & AQ);
        rewrite AM, AF, AR, AS, AA, AQ, PM, PF, PR, PS, PA, PQ, M, F, R, S, A, Q;
        cbn; rewrite ?app_nil_r; auto.
  - unfold trace, FindIdentity, start.
    cbn -[Z.ltb Z.eqb Z.of_nat List.length FindIdentity_loop].
    rewrite Hs. cbn [fst snd]. rewrite (proj2 (Z.eqb_neq _ _) Hne). cbn. auto.
Qed.

Lemma search_retains (s : slice IdentityWithRefModel) :
  result (FindIdentity W identityLabel isFullLabelMatch) = Done (s, None) ->
  retained (trace (FindIdentity W identityLabel isFullLabelMatch))
    = ref_addrs (map KeychainRef (elems s))
  /\ forallb non_null (map KeychainRef (elems s)) = true.
Proof.
  intros Hres.
  destruct (keychain_search W identityQuery) as [status entries] eqn:Hs.
  unfold result, trace in *.
  destruct (Z.eqb_spec status errSecSuccess) as [->|Hne];
    [destruct entries as [|d rest] |].
  - exfalso. revert Hres. unfold FindIdentity, start.
    cbn -[Z.ltb Z.eqb Z.of_nat List.length FindIdentity_loop].
    rewrite Hs. cbn. discriminate.
  - rewrite (FindIdentity_enters_loop (d :: rest) Hs) in * by discriminate.
    pose proof (loop_frames identityLabel isFullLabelMatch 1 (d :: rest)
                  0 [] search_done) as Hf.
    pose proof (loop_retains identityLabel isFullLabelMatch 1 (d :: rest)
                  0 [] search_done) as (rs & Hr & Hn & Hl).
    destruct (FindIdentity_loop _ _ _ _ _ _ _) as [[r|m|m] st'];
      try discriminate. cbn [fst snd calls] in *.
    destruct (loop_frame_search_done st' Hf) as (ms & _ & D & _).
    injection Hres as ->. rewrite (Hl s eq_refl). cbn [elems app].
    split; [| exact Hn]. rewrite D.
    destruct (deferred_projections (rev ms) [C_CFRelease 1; C_CFRelease 0])
      as (_ & _ & _ & _ & PT & _ & _).
    destruct (projections_app (calls st')
                (map C_free (rev ms) ++ [C_CFRelease 1; C_CFRelease 0]))
      as (_ & _ & _ & _ & AT & _ & _).
    rewrite AT, PT, Hr. cbn. rewrite app_nil_r. reflexivity.
  - exfalso. revert Hres. unfold FindIdentity, start.
    cbn -[Z.ltb Z.eqb Z.of_nat List.length FindIdentity_loop].
    rewrite Hs. cbn [fst snd]. rewrite (proj2 (Z.eqb_neq _ _) Hne). cbn.
    discriminate.
Qed.

(** The records a successful search returns carry exactly the references it
    retained, once each and in order; none of them is nil, so
    [ReleaseIdentityWithRefList] on the returned list runs to its end and
    releases exactly what the search retained. *)
Theorem FindIdentity_retains_what_it_returns (s : slice IdentityWithRefModel) :
  result (FindIdentity W identityLabel isFullLabelMatch) = Done (s, None) ->
  retained (trace (FindIdentity W identityLabel isFullLabelMatch))
    = ref_addrs (map KeychainRef (elems s))
  /\ forallb non_null (map KeychainRef (elems s)) = true
  /\ result (ReleaseIdentityWithRefList (elems s)) = Done tt
  /\ released_refs (trace (ReleaseIdentityWithRefList (elems s)))
     = retained (trace (FindIdentity W identityLabel isFullLabelMatch)).
Proof.
  intros Hres. destruct (search_retains s Hres) as [Hret Hnn].
  split; [exact Hret | split; [exact Hnn |]].
  rewrite Hret. unfold result, trace.
  rewrite ReleaseIdentityWithRefList_as_refs, (ReleaseRefList_run _ Hnn).
  cbn [fst snd calls start app]. rewrite released_refs_releases. auto.
Qed.

End SearchClaimsMore.

(** ** Search then validation *)

Section ValidateMore.

Context {Certificate : Type}.
Variable W : World Certificate.
Variables (identityLabel : string) (isFullLabelMatch : bool).

Ltac go_valid :=
  cbn -[Z.ltb Z.eqb Z.gtb Z.leb Z.of_nat Z.of_N Z.add Z.mul Z.div List.length
        GetCertificateDataFromIdentityRef].

Ltac run_extraction a :=
  match goal with
  | |- context [GetCertificateDataFromIdentityRef W (KeychainRef a) ?st] =>
      let E := fresh "E" in
      let o' := fresh "o" in
      let st' := fresh "st" in
      pose proof (certificate_any_state W (KeychainRef a) st) as E;
      destruct (GetCertificateDataFromIdentityRef W (KeychainRef a) st) as [o' st'];
      cbn [fst] in E; subst o'
  end.

Lemma validity_loop_returns (found : list IdentityWithRefModel) :
  forall valid st s e,
    fst (validity_loop W found valid st) = Done (s, e) ->
    exists pre post,
      found = (pre ++ post)%list
      /\ s = mk_slice (valid ++ filter (passes_validity W) pre)
      /\ forallb (extracts W) pre = true
      /\ match e with
         | None => post = []
         | Some err =>
             exists a post' e0,
               post = a :: post'
               /\ certificate_of W (KeychainRef a) = Done (inr e0)
               /\ err = ErrReadCertificate e0
         end.
Proof.
  induction found as [|a rest IH]; intros valid st s e.
  - cbn. intros H. injection H as <- <-. exists [], [].
    cbn. rewrite app_nil_r. auto.
  - go_valid. run_extraction a.
    destruct (certificate_of W (KeychainRef a)) as [[cert|e0]|m|m] eqn:Ec;
      go_valid; try discriminate.
    + assert (Hex : extracts W a = true) by (unfold extracts; rewrite Ec; reflexivity).
      destruct (CheckCertificateValidity_ W cert) eqn:Ev; intros H;
        apply IH in H as (pre & post & -> & -> & Hpre & He);
        exists (a :: pre), post; cbn [app filter forallb];
        match goal with
        | |- context [if passes_validity W a then _ else _] =>
            replace (passes_validity W a)
              with (match CheckCertificateValidity_ W cert with
                    | None => true
                    | Some _ => false
                    end)
              by (unfold passes_validity; rewrite Ec; reflexivity)
        end;
        rewrite Ev, Hex, Hpre, <- ?app_assoc; auto.
    + intros H. injection H as <- <-. exists [], (a :: rest).
      cbn. rewrite app_nil_r. repeat split; auto. exists a, rest, e0. auto.
Qed.

(** A search error comes back wrapped, with a nil list, and nothing is
    called after the search. *)
Theorem FindAndValidateIdentity_wraps_search_error
    (s : slice IdentityWithRefModel) (e : error) :
  result (FindIdentity W identityLabel isFullLabelMatch) = Done (s, Some e) ->
  result (FindAndValidateIdentity W identityLabel isFullLabelMatch)
    = Done (nil_slice, Some (ErrFindIdentityFailed e))
  /\ trace (FindAndValidateIdentity W identityLabel isFullLabelMatch)
    = trace (FindIdentity W identityLabel isFullLabelMatch).
Proof.
  intros Hfind. unfold result, trace, FindAndValidateIdentity in *.
  destruct (FindIdentity W identityLabel isFullLabelMatch start) as [o st] eqn:E.
  cbn [fst] in Hfind. subst o.
  rewrite (bind_done _ _ _ _ _ E). cbn. auto.
Qed.

(** Whatever [FindAndValidateIdentity] returns after a successful search is
    made of candidates of that search, in search order, that passed the
    validity check: it is the valid part of a prefix of the candidates whose
    certificates were all extracted.  Without error the prefix is the whole
    list; with an error the candidate after the prefix is the one whose
    extraction failed. *)
Theorem FindAndValidateIdentity_returns_valid_candidates
    (found s : slice IdentityWithRefModel) (e : option error) :
  result (FindIdentity W identityLabel isFullLabelMatch) = Done (found, None) ->
  result (FindAndValidateIdentity W identityLabel isFullLabelMatch) = Done (s, e) ->
  exists pre post,
    elems found = (pre ++ post)%list
    /\ elems s = filter (passes_validity W) pre
    /\ forallb (extracts W) pre = true
    /\ match e with
       | None => post = []
       | Some err =>
           exists a post' e0,
             post = a :: post'
             /\ certificate_of W (KeychainRef a) = Done (inr e0)
             /\ err = ErrReadCertificate e0
       end.
Proof.
  intros Hfind Hres. unfold result, FindAndValidateIdentity in *.
  destruct (FindIdentity W identityLabel isFullLabelMatch start) as [o st] eqn:E.
  cbn [fst] in Hfind. subst o.
  rewrite (bind_done _ _ _ _ _ E) in Hres. cbn [fst snd] in Hres.
  destruct (len found <? 1) eqn:Hlen.
  - cbn in Hres. injection Hres as <- <-.
    exists [], []. apply Z.ltb_lt in Hlen. unfold len in Hlen.
    destruct (elems found); [cbn; auto | cbn in Hlen; lia].
  - apply validity_loop_returns in Hres as (pre & post & Hf & -> & Hpre & He).
    exists pre, post. cbn. auto.
Qed.

End ValidateMore.

(** ** Label matching *)

Lemma filter_twice {X} (f g : X -> bool) (l : list X) :
  (forall x, f x = true -> g x = true) ->
  filter f (filter g l) = filter f l.
Proof.
  intros H. induction l as [|x l IH]; cbn; [reflexivity|].
  destruct (g x) eqn:Eg; cbn.
  - rewrite IH. reflexivity.
  - destruct (f x) eqn:Ef; [| exact IH].
    apply H in Ef. congruence.
Qed.

Lemma filter_everything {X} (f : X -> bool) (l : list X) :
  (forall x, f x = true) -> filter f l = l.
Proof.
  intros H. induction l as [|x l IH]; cbn; [reflexivity|].
  rewrite H, IH. reflexivity.
Qed.

Lemma filter_through_map {X Y} (g : X -> Y) (f : Y -> bool) (l : list X) :
  filter f (map g l) = map g (filter (fun x => f (g x)) l).
Proof.
  induction l as [|x l IH]; cbn; [reflexivity|].
  destruct (f (g x)); cbn; rewrite IH; reflexivity.
Qed.

Lemma full_match_is_partial_match (identityLabel labl : string) :
  label_matches true identityLabel labl = true ->
  label_matches false identityLabel labl = true.
Proof.
  cbn. intros H. apply String.eqb_eq in H. subst.
  apply strings_Contains_spec. exists "", "".
  cbn. induction identityLabel; cbn; congruence.
Qed.

Section LabelMore.

Context {Certificate : Type}.
Variable W : World Certificate.
Variable entries : list CFDictionaryRef.
Hypothesis search_ok : keychain_search W identityQuery = (errSecSuccess, entries).
Hypothesis some_entry : entries <> [].

(** With the empty label and partial matching nothing is filtered out: the
    search returns every entry of the store, in store order. *)
Theorem FindIdentity_empty_label_returns_all :
  forallb (entry_readable false "") entries = true ->
  result (FindIdentity W "" false) = Done (mk_slice (map record_of entries), None).
Proof.
  intros Hall.
  rewrite (FindIdentity_readable_result W "" false entries search_ok
             some_entry Hall).
  rewrite filter_everything; [reflexivity |].
  intros d. unfold accepts. cbn. destruct (label_of d); reflexivity.
Qed.

(** Full matching refines partial matching: when the partial-match search
    for a label goes through, so does the full-match search, and it returns
    those records of the partial-match result whose label equals the query
    label. *)
Theorem FindIdentity_full_match_refines_partial (identityLabel : string) :
  forallb (entry_readable false identityLabel) entries = true ->
  exists partial,
    result (FindIdentity W identityLabel false) = Done (mk_slice partial, None)
    /\ result (FindIdentity W identityLabel true)
       = Done (mk_slice (filter (fun r => String.eqb (Label r) identityLabel)
                                partial), None).
Proof.
  intros Hpart.
  assert (Hfull : forallb (entry_readable true identityLabel) entries = true).
  { apply forallb_forall. intros d Hd.
    apply (proj1 (forallb_forall _ _) Hpart) in Hd.
    unfold entry_readable in *.
    destruct (entry_label d) as [[l [e|]]|m|m]; try discriminate.
    destruct (label_matches true identityLabel l) eqn:Et; [| reflexivity].
    rewrite (full_match_is_partial_match _ _ Et) in Hd. exact Hd. }
  eexists. split.
  - apply (FindIdentity_readable_result W identityLabel false entries
             search_ok some_entry Hpart).
  - rewrite (FindIdentity_readable_result W identityLabel true entries
               search_ok some_entry Hfull).
    rewrite filter_through_map.
    change (fun x : CFDictionaryRef => (Label (record_of x) =? identityLabel)%string)
      with (accepts true identityLabel).
    rewrite filter_twice; [reflexivity |].
    intros d. unfold accepts. apply full_match_is_partial_match.
Qed.

End LabelMore.

(** ** What validation adds to the log of the search *)

Section SearchCalls.

Variable P : Call -> bool.
Hypothesis P_search : forall c, outside_search c = false -> P c = true.

Ltac keeps_search known :=
  repeat first
    [ known
    | apply keeps_call; apply P_search; reflexivity
    | apply keeps_defer; apply P_search; reflexivity
    | solve [ auto with keeps ]
    | match goal with
      | |- keeps _ (if ?b then _ else _) => destruct b
      | |- keeps _ (match ?x with _ => _ end) => destruct x
      | |- keeps _ (let _ := _ in _) => cbv zeta
      | |- keeps _ (func _) => apply keeps_func
      end
    | apply keeps_bind; [| intros ? ] ].

Lemma search_calls_getCFDictValueRef d key : keeps P (getCFDictValueRef d key).
Proof.
  unfold getCFDictValueRef, CFDictionaryGetValueIfPresent, CFDictionaryGetValue.
  keeps_search fail.
Qed.

Lemma search_calls_getCFDictValueUTF8String d key :
  keeps P (getCFDictValueUTF8String d key).
Proof.
  unfold getCFDictValueUTF8String, getCFDictValueCFStringRef, CFGetTypeID,
    CFStringGetTypeID, make_bytes.
  keeps_search ltac:(apply search_calls_getCFDictValueRef).
Qed.

Lemma search_calls_loop identityLabel isFullLabelMatch arr entries :
  forall i acc,
    keeps P (FindIdentity_loop identityLabel isFullLabelMatch arr entries i acc).
Proof.
  induction entries as [|d rest IH]; intros i acc; cbn [FindIdentity_loop].
  - auto with keeps.
  - unfold C_CString_, convertCStringToCFString, CFRetain.
    keeps_search ltac:(first [ apply IH
                             | apply search_calls_getCFDictValueUTF8String
                             | apply search_calls_getCFDictValueRef ]).
Qed.

Lemma search_calls_add_values h q : keeps P (add_values h q).
Proof.
  induction q as [|[k v] q IH]; cbn [add_values];
    keeps_search ltac:(apply IH).
Qed.

Lemma search_calls_FindIdentity {Certificate} (W : World Certificate)
    identityLabel isFullLabelMatch :
  keeps P (FindIdentity W identityLabel isFullLabelMatch).
Proof.
  unfold FindIdentity.
  keeps_search ltac:(first [ apply search_calls_loop
                           | apply search_calls_add_values ]).
Qed.

End SearchCalls.

Lemma data_reads_app (a b : list Call) :
  data_reads (a ++ b) = (data_reads a ++ data_reads b)%list.
Proof. apply flat_map_app. Qed.

Lemma data_reads_none (t : list Call) :
  Forall (fun c => not_data_read c = true) t -> data_reads t = [].
Proof.
  intros H. induction H as [|c t Hc _ IH]; cbn; [reflexivity|].
  unfold data_reads in *. cbn. rewrite IH.
  destruct c; try reflexivity; discriminate.
Qed.

Section ValidateLog.

Context {Certificate : Type}.
Variable W : World Certificate.

(** What one certificate extraction appends to the log. *)
Lemma extraction_frame (identityRef : CFTypeRef) (st : Native) :
  exists cs,
    calls (snd (GetCertificateDataFromIdentityRef W identityRef st))
      = (calls st ++ cs)%list
    /\ deferred (snd (GetCertificateDataFromIdentityRef W identityRef st))
      = deferred st
    /\ retained cs = []
    /\ released_refs cs = data_reads cs.
Proof.
  unfold GetCertificateDataFromIdentityRef, convertCFDataRefToGoBytes. go.
  destruct (identity_certificate W identityRef) as [status c]. go.
  destruct (status =? errSecSuccess); go;
    [| eexists; split; [rewrite <- ?app_assoc; reflexivity | auto]].
  destruct c as [|a [ | | | | |[der|]]]; go;
    try (eexists; split; [rewrite <- ?app_assoc; reflexivity | auto]).
  destruct (C_int (Z.of_nat (List.length der)) <? 0); go;
    [| destruct (ParseCertificate_ W _); go];
    (eexists; split; [rewrite <- ?app_assoc; reflexivity | auto]).
Qed.

Lemma validity_frame (found : list IdentityWithRefModel) :
  forall valid st,
    exists cs,
      calls (snd (validity_loop W found valid st)) = (calls st ++ cs)%list
      /\ retained cs = []
      /\ released_refs cs = data_reads cs.
Proof.
  induction found as [|a rest IH]; intros valid st.
  - exists []. cbn. rewrite app_nil_r. auto.
  - cbn [validity_loop]. unfold bind at 1.
    destruct (extraction_frame (KeychainRef a) st) as (cs & Hc & _ & Hr & Hd).
    destruct (GetCertificateDataFromIdentityRef W (KeychainRef a) st)
      as [[[cert|e]|m|m] st1]; cbn [snd] in *;
      try (exists cs; solve [auto]).
    cbn -[validity_loop].
    destruct (CheckCertificateValidity_ W cert);
      match goal with
      | |- context [validity_loop W rest ?v ?s] =>
          destruct (IH v s) as (cs2 & Hc2 & Hr2 & Hd2)
      end;
      exists (cs ++ Go_CheckCertificateValidity :: cs2)%list;
      rewrite Hc2; cbn [calls]; rewrite Hc, <- !app_assoc;
      destruct (projections_app cs (Go_CheckCertificateValidity :: cs2))
        as (_ & _ & AR & _ & AT & _ & _);
      rewrite AR, AT, data_reads_app, Hr, Hd;
      (split; [reflexivity | split; [exact Hr2 | f_equal; exact Hd2]]).
Qed.

Variables (identityLabel : string) (isFullLabelMatch : bool).

(** The search makes no call of the kinds validation and export make. *)
Theorem FindIdentity_makes_search_calls_only :
  Forall (fun c => outside_search c = false)
         (trace (FindIdentity W identityLabel isFullLabelMatch)).
Proof.
  eapply Forall_impl;
    [| apply (keeps_trace (fun c => negb (outside_search c))),
         search_calls_FindIdentity ].
  - intros c Hc. apply negb_true_iff in Hc. exact Hc.
  - intros c Hc. rewrite Hc. reflexivity.
Qed.

(** Validation retains nothing and releases only the certificate data it
    read.  So after a successful search the references retained are those
    of all the candidates of the search, whether or not validation returns
    them, and apart from the search's own releases every release is that of
    a data object read. *)
Theorem FindAndValidateIdentity_keeps_candidates_retained
    (found : slice IdentityWithRefModel) :
  result (FindIdentity W identityLabel isFullLabelMatch) = Done (found, None) ->
  let t := trace (FindAndValidateIdentity W identityLabel isFullLabelMatch) in
  retained t = ref_addrs (map KeychainRef (elems found))
  /\ released_refs t
     = (released_refs (trace (FindIdentity W identityLabel isFullLabelMatch))
        ++ data_reads t)%list.
Proof.
  intros Hfind.
  destruct (search_retains W identityLabel isFullLabelMatch found Hfind)
    as [Hret _].
  assert (Hnone : data_reads (trace (FindIdentity W identityLabel isFullLabelMatch))
                  = []).
  { apply data_reads_none, keeps_trace, search_calls_FindIdentity.
    intros [] H; try discriminate H; reflexivity. }
  unfold result, trace, FindAndValidateIdentity in *.
  destruct (FindIdentity W identityLabel isFullLabelMatch start) as [o st] eqn:E.
  cbn [fst snd] in *. subst o.
  rewrite (bind_done _ _ _ _ _ E). cbn [fst snd].
  destruct (len found <? 1); cbn -[validity_loop].
  - rewrite Hnone, app_nil_r. auto.
  - destruct (validity_frame (elems found) [] st) as (cs & Hc & Hr & Hd).
    rewrite Hc.
    destruct (projections_app (calls st) cs) as (_ & _ & AR & _ & AT & _ & _).
    rewrite AR, AT, data_reads_app, Hr, Hd, Hret, Hnone, app_nil_r. auto.
Qed.

End ValidateLog.

(** ** The further properties on the sample keychains *)

Lemma GetCertificateDataFromIdentityRef_balance_witness :
  let t := trace (GetCertificateDataFromIdentityRef Demo.world Demo.identityA) in
  acquired t = (released t + 1)%nat
  /\ released_refs t = data_reads t
  /\ frees t = [].
Proof.
  exact (GetCertificateDataFromIdentityRef_balance Demo.world Demo.identityA
           (or_intror eq_refl)).
Defined.

Lemma ReleaseRefList_releases_each_once_witness :
  result (ReleaseIdentityWithRefList [Samples.recordA; Samples.recordB]) = Done tt
  /\ trace (ReleaseIdentityWithRefList [Samples.recordA; Samples.recordB])
     = [C_CFRelease 102; C_CFRelease 202].
Proof.
  pose proof (ReleaseRefList_releases_each_once
                [Samples.recordA; Samples.recordB] eq_refl) as H.
  exact (conj (proj1 H) (proj1 (proj2 H))).
Defined.

Lemma ReleaseRefList_stops_at_nil_witness :
  result (ReleaseRefList [Demo.identityA; NULL; Demo.identityB])
    = Crash "CFRelease: NULL"
  /\ trace (ReleaseRefList [Demo.identityA; NULL; Demo.identityB])
    = [C_CFRelease 102].
Proof.
  exact (ReleaseRefList_stops_at_nil [Demo.identityA] [Demo.identityB] eq_refl).
Defined.

Lemma getCFDictValueUTF8String_round_trip_witness :
  result (getCFDictValueUTF8String (Demo.entry 100 "iPhone Developer: A")
                                   (lablKey 0))
    = Done ("iPhone Developer: A", None)
  /\ result (getCFDictValueUTF8String Samples.cut_entry (lablKey 0))
    = Done ("ab", None).
Proof.
  split.
  - exact (proj1 (getCFDictValueUTF8String_round_trip
                    (Demo.entry 100 "iPhone Developer: A") (lablKey 0)
                    101 (mkNativeString 19 (Some "iPhone Developer: A"))
                    "iPhone Developer: A" eq_refl eq_refl
                    ltac:(unfold maxAlloc; cbn; lia) ltac:(cbn; lia))).
  - exact (proj1 (getCFDictValueUTF8String_round_trip
                    Samples.cut_entry (lablKey 0)
                    401 (mkNativeString 5 (Some Samples.cut_label))
                    Samples.cut_label eq_refl eq_refl
                    ltac:(unfold maxAlloc; cbn; lia) ltac:(cbn; lia))).
Defined.

Lemma FindIdentity_search_failure_witness :
  result (FindIdentity Samples.denied "iPhone Developer" false)
    = Done (nil_slice, Some (ErrCopyMatch (-25293))).
Proof.
  exact (proj1 (FindIdentity_search_failure Samples.denied "iPhone Developer"
                  false eq_refl)).
Defined.

Lemma FindIdentity_releases_witness :
  let t := trace (FindIdentity Demo.world "iPhone Developer" false) in
  frees t = rev (mallocs t)
  /\ released_refs t = [1; 0]%nat.
Proof.
  pose proof (FindIdentity_releases Demo.world "iPhone Developer" false eq_refl)
    as H.
  exact (conj (proj1 (proj2 H)) (proj1 (proj2 (proj2 H)))).
Defined.

Lemma FindIdentity_retains_what_it_returns_witness :
  retained (trace (FindIdentity Demo.world "iPhone Developer" false))
    = [102; 202]%nat
  /\ released_refs (trace (ReleaseIdentityWithRefList
                             [Samples.recordA; Samples.recordB]))
    = retained (trace (FindIdentity Demo.world "iPhone Developer" false)).
Proof.
  pose proof (FindIdentity_retains_what_it_returns Demo.world
                "iPhone Developer" false
                (mk_slice [Samples.recordA; Samples.recordB]) eq_refl) as H.
  exact (conj (proj1 H) (proj2 (proj2 (proj2 H)))).
Defined.

Lemma FindAndValidateIdentity_wraps_search_error_witness :
  result (FindAndValidateIdentity Demo.world_empty "iPhone Developer" false)
    = Done (nil_slice, Some (ErrFindIdentityFailed ErrNoIdentity)).
Proof.
  exact (proj1 (FindAndValidateIdentity_wraps_search_error Demo.world_empty
                  "iPhone Developer" false nil_slice ErrNoIdentity eq_refl)).
Defined.

Lemma FindAndValidateIdentity_returns_valid_candidates_witness :
  exists pre post,
    [Samples.recordA; Samples.recordB] = (pre ++ post)%list
    /\ [Samples.recordA] = filter (passes_validity Demo.world) pre
    /\ forallb (extracts Demo.world) pre = true
    /\ post = [].
Proof.
  exact (FindAndValidateIdentity_returns_valid_candidates Demo.world
           "iPhone Developer" false
           (mk_slice [Samples.recordA; Samples.recordB])
           (mk_slice [Samples.recordA]) None eq_refl eq_refl).
Defined.

Lemma FindIdentity_empty_label_returns_all_witness :
  result (FindIdentity Demo.world "" false)
    = Done (mk_slice [Samples.recordA; Samples.recordB; Samples.recordC], None).
Proof.
  exact (FindIdentity_empty_label_returns_all Demo.world Demo.store eq_refl
           ltac:(discriminate) eq_refl).
Defined.

Lemma FindIdentity_full_match_refines_partial_witness :
  exists partial,
    result (FindIdentity Demo.world "iPhone Developer: A" false)
      = Done (mk_slice partial, None)
    /\ result (FindIdentity Demo.world "iPhone Developer: A" true)
       = Done (mk_slice (filter (fun r => String.eqb (Label r) "iPhone Developer: A")
                                partial), None).
Proof.
  exact (FindIdentity_full_match_refines_partial Demo.world Demo.store eq_refl
           ltac:(discriminate) "iPhone Developer: A" eq_refl).
Defined.

Lemma FindAndValidateIdentity_keeps_candidates_retained_witness :
  retained (trace (FindAndValidateIdentity Demo.world "iPhone Developer" false))
    = [102; 202]%nat.
Proof.
  exact (proj1 (FindAndValidateIdentity_keeps_candidates_retained Demo.world
                  "iPhone Developer" false
                  (mk_slice [Samples.recordA; Samples.recordB]) eq_refl)).
Defined.
